(** * Torus wagmi connector: a shallow embedding of [src/torusConnector.ts]

    The connector is integration glue between wagmi's connector contract
    and the Torus embed SDK.  Its own state is the pair of closure
    variables [__torus] and [network]; everything else it touches is
    external: the SDK instance and its provider, the wagmi event emitter,
    the logger, viem's [getAddress] and JavaScript's [Number].

    The embedding is a state-and-exception monad over a [World] that holds
    the two closure variables, the state of the external SDK, and the
    traces of emitted events and of log calls.  The SDK is an interface
    (a type class); every theorem holds for every implementation of it. *)

From Stdlib Require Import Ascii String ZArith List Bool Lia.
Import ListNotations.
Local Open Scope string_scope.
Local Open Scope list_scope.

(* ================================================================== *)
(** ** JavaScript values used by the connector *)
(* ================================================================== *)

(** Chain ids are JavaScript numbers.  The connector does no arithmetic
    on them: it compares them with [===] and [!==], tests their
    truthiness and passes them on; it obtains them from the caller, from
    the chain list and from [Number(string)], which yields [NaN] on a
    malformed string.  So a number is [NaN] or a value with decidable
    identity, written as an integer, of which [0] (for [+0] and [-0]) is
    the falsy one. *)
Inductive number : Type :=
| NaN
| Num (z : Z).

(** [a === b] on numbers: [NaN] is not equal to anything, itself included. *)
Definition strict_eq (a b : number) : bool :=
  match a, b with
  | Num x, Num y => Z.eqb x y
  | _, _ => false
  end.

(** [a !== b]. *)
Definition strict_neq (a b : number) : bool := negb (strict_eq a b).

(** Truthiness of a number: [0] and [NaN] are falsy. *)
Definition truthy_number (n : number) : bool :=
  match n with
  | NaN => false
  | Num z => negb (Z.eqb z 0)
  end.

(** Truthiness of a string: only the empty string is falsy. *)
Definition truthy_string (s : string) : bool :=
  match s with
  | EmptyString => false
  | String _ _ => true
  end.

(** [a || b] on strings. *)
Definition or_string (a b : string) : string :=
  if truthy_string a then a else b.

(** viem's [Address] is a template-literal string type. *)
Definition Address : Type := string.

(** The errors that can travel through the connector.  [Error] is only
    ever built by the connector itself ([new Error(msg)]); what the SDK
    rejects with is kept apart under [SdkError], so that the origin of an
    error stays visible. *)
Inductive error : Type :=
| Error (message : string)
| TypeError (message : string)
| InvalidAddressError (address : string)
| SwitchChainError (cause : error)
| SdkError (detail : string).

(** The two errors the connector builds with a fixed message, besides
    "Please login first". *)
Definition uninitialized : error := Error "Torus instance not initialized".
Definition chain_not_found : error := Error "chain not found on connector.".

(** Outcome of evaluating a JavaScript expression or awaiting a promise. *)
Inductive completion (A : Type) : Type :=
| Return (a : A)
| Throw (e : error).
Arguments Return {A} a.
Arguments Throw {A} e.

(* ================================================================== *)
(** ** Data model *)
(* ================================================================== *)

Record NativeCurrency : Type := {
  currency_name : string;
  currency_symbol : string
}.

(** viem's [Chain], restricted to the fields the connector reads. *)
Record Chain : Type := {
  chain_id : number;
  chain_name : string;
  nativeCurrency : option NativeCurrency;
  blockExplorers_default_url : option string;
  rpcUrls_default_http : list string
}.

(** The closure variable [network]. *)
Record Network : Type := {
  net_host : string;
  net_chainId : number;
  networkName : string;
  tickerName : option string;
  ticker : option string;
  blockExplorer : string
}.

(** [TorusParams] without [network]; only [showTorusButton] is read. *)
Record TorusParams : Type := {
  showTorusButton_param : option bool
}.

Record TorusCtorArgs : Type := {
  ctor_buttonPosition : string;
  ctor_modalZIndex : Z;
  ctor_apiKey : option string;
  ctor_buttonSize : option Z
}.

(** [TorusConnectorOptions.options]. *)
Record Options : Type := {
  host : string;
  chainId : option number;
  TorusParams_opt : option TorusParams;
  buttonPosition : option string;
  apiKey : option string;
  buttonSize : option Z
}.

(** Argument of [torus.init]: [{...options.TorusParams, network}]. *)
Record InitArgs : Type := {
  init_params : option TorusParams;
  init_network : option Network
}.

(** Argument of [torus.setProvider]. *)
Record SetProviderArgs : Type := {
  sp_host : string;
  sp_chainId : number;
  sp_networkName : string
}.

(** The two connector methods that [connect] registers on the provider. *)
Inductive Listener : Type :=
| onAccountsChanged_listener
| onChainChanged_listener.

(** Payloads handed to [config.emitter.emit]. *)
Inductive Event : Type :=
| EmitDisconnect
| EmitChangeAccounts (accounts : list Address)
| EmitChangeChainId (chainId : number)
| EmitConnect (accounts : list Address) (chainId : number).

(** Arguments of one call of the logger. *)
Inductive LogArg : Type :=
| LogString (s : string)
| LogNumber (n : number)
| LogBool (b : bool)
| LogError (e : error).

Inductive LogLevel : Type := LogInfo | LogWarn | LogErr.

Definition LogEntry : Type := (LogLevel * list LogArg)%type.

(* ================================================================== *)
(** ** The Torus embed SDK as an interface *)
(* ================================================================== *)

(** How a call into the SDK ends: with a value, or with a rejection (a
    thrown error, for the synchronous calls) that the SDK built.  Inside
    the connector such a rejection is the error [SdkError reason]. *)
Inductive reply (A : Type) : Type :=
| Resolve (a : A)
| Reject (reason : string).
Arguments Resolve {A} a.
Arguments Reject {A} reason.

Definition completion_of_reply {A : Type} (r : reply A) : completion A :=
  match r with
  | Resolve a => Return a
  | Reject reason => Throw (SdkError reason)
  end.

(** [Env] is the state of everything behind the SDK (its instances, the
    iframe, the wallet, the network).  [Torus] and [Provider] are object
    references; the operations read and update [Env] and may reject.

    An operation stands for a call that is awaited at once: it takes the
    SDK from the call to the moment the call has settled.  [init] is the
    one call that the connector also leaves pending while it goes on (the
    un-awaited [isAuthorized()] of [switchChain], the two lookups of
    [connect]); it comes in two halves: [init_begin] is what the call does
    before it returns its promise, [init_end] takes the SDK to the moment
    that promise has settled. *)
Class TorusEmbed : Type := {
  Env : Type;
  Torus : Type;
  Provider : Type;
  Torus_new : TorusCtorArgs -> Env -> Torus * Env;
  isLoggedIn : Torus -> Env -> bool;
  isInitialized : Torus -> Env -> bool;
  provider_of : Torus -> Env -> option Provider;
  init_begin : Torus -> InitArgs -> Env -> Env;
  init_end : Torus -> Env -> reply unit * Env;
  login : Torus -> Env -> reply unit * Env;
  logout : Torus -> Env -> reply unit * Env;
  showTorusButton : Torus -> Env -> reply unit * Env;
  setProvider : Torus -> SetProviderArgs -> Env -> reply unit * Env;
  request_eth_accounts :
    Provider -> Env -> reply (option (list (option string))) * Env;
  request_eth_chainId : Provider -> Env -> reply string * Env;
  provider_on : Provider -> string -> Listener -> Env -> reply unit * Env
}.

(** [torus.init(args)], awaited at once. *)
Definition init {sdk : TorusEmbed} (t : Torus) (args : InitArgs) (e : Env)
  : reply unit * Env :=
  init_end t (init_begin t args e).

(* ================================================================== *)
(** ** The connector *)
(* ================================================================== *)

(** What the module imports besides the SDK: JavaScript's [Number]
    applied to a string, and viem's [getAddress] ([None] when it throws
    [InvalidAddressError]). *)
Class Imports : Type := {
  Number : string -> number;
  getAddress : string -> option Address
}.

(** The argument of [torusConnector]. *)
Class TorusConnectorOptions : Type := {
  chains : list Chain;
  options : Options
}.

Section Connector.

Context {sdk : TorusEmbed} {imports : Imports} {cfg : TorusConnectorOptions}.

(** The closure variables, the SDK's state, and the traces of
    [config.emitter.emit] and of the logger. *)
Record World : Type := {
  __torus : option Torus;
  network : option Network;
  env : Env;
  emitted : list Event;
  logged : list LogEntry
}.

(** *** State and exception monad *)

Definition M (A : Type) : Type := World -> completion A * World.

Definition ret {A : Type} (a : A) : M A := fun w => (Return a, w).

Definition throw {A : Type} (e : error) : M A := fun w => (Throw e, w).

Definition bind {A B : Type} (m : M A) (k : A -> M B) : M B :=
  fun w =>
    match m w with
    | (Return a, w') => k a w'
    | (Throw e, w') => (Throw e, w')
    end.

Notation "x <- m ;; k" := (bind m (fun x => k))
  (at level 100, m at next level, right associativity).
Notation "m ;;; k" := (bind m (fun _ => k))
  (at level 100, right associativity).

(** [try { m } catch (error) { h error }]. *)
Definition try_catch {A : Type} (m : M A) (h : error -> M A) : M A :=
  fun w =>
    match m w with
    | (Return a, w') => (Return a, w')
    | (Throw e, w') => h e w'
    end.

(** *** Promises and async calls *)

(** The promise that a call of an async method returns.  The call has run
    up to its first [await]: it has settled there, or it is pending, and
    [rest] is what is left of it for the event loop to run.  The promise
    itself is an object, and so truthy. *)
Inductive Promise (A : Type) : Type :=
| Settled (c : completion A)
| Pending (rest : M A).
Arguments Settled {A} c.
Arguments Pending {A} rest.

Definition truthy_promise {A : Type} (p : Promise A) : bool := true.

(** [await p]: the caller resumes when [p] has settled, with what it has
    settled to; a pending call has been run to its end by then. *)
Definition await {A : Type} (p : Promise A) : M A :=
  match p with
  | Settled c => fun w => (c, w)
  | Pending rest => rest
  end.

(** The call of an async method.  [body] is the method up to its first
    [await]; what it throws rejects the promise, the call itself does not
    throw. *)
Definition async {A : Type} (body : M (Promise A)) : M (Promise A) :=
  fun w =>
    match body w with
    | (Return p, w') => (Return p, w')
    | (Throw e, w') => (Return (Settled (Throw e)), w')
    end.

(** The method reaches an [await] and hands [rest] to the event loop. *)
Definition suspend {A : Type} (rest : M A) : M (Promise A) :=
  ret (Pending rest).

(** The method returns [a] without having awaited anything. *)
Definition resolved {A : Type} (a : A) : M (Promise A) :=
  ret (Settled (Return a)).

(** [meanwhile floating m]: [m] runs while the un-awaited call behind
    [floating] is pending.  By the time [m] is over, whether it has
    returned or thrown, the event loop has run the rest of the pending
    call, whose outcome nobody looks at.  The rest comes after the SDK
    calls of [m]: the pending call resumes no earlier than at the first
    [await] of [m], and an SDK call is made, and answered, in the state
    in which it is made. *)
Definition meanwhile {A B : Type} (floating : Promise B) (m : M A) : M A :=
  fun w =>
    let (c, w1) := m w in
    let (_, w2) := await floating w1 in
    (c, w2).

(** [Promise.all([p1, p2])]: it settles when both calls have, in the
    order of the array, with both values or with the first rejection. *)
Definition Promise_all {A B : Type} (p1 : Promise A) (p2 : Promise B)
  : Promise (A * B) :=
  Pending (fun w =>
    let (c1, w1) := await p1 w in
    let (c2, w2) := await p2 w1 in
    (match c1, c2 with
     | Throw e, _ => Throw e
     | Return _, Throw e => Throw e
     | Return a, Return b => Return (a, b)
     end, w2)).

(** An SDK call. *)
Definition call {A : Type} (op : Env -> reply A * Env) : M A :=
  fun w =>
    let (r, e') := op (env w) in
    (completion_of_reply r,
     {| __torus := __torus w; network := network w; env := e';
        emitted := emitted w; logged := logged w |}).

(** The part of an SDK call that runs before the call returns its
    promise. *)
Definition begin (f : Env -> Env) : M unit :=
  fun w =>
    (Return tt, {| __torus := __torus w; network := network w; env := f (env w);
                   emitted := emitted w; logged := logged w |}).

(** A read of an SDK property. *)
Definition read {A : Type} (f : Env -> A) : M A :=
  fun w => (Return (f (env w)), w).

Definition emit (ev : Event) : M unit :=
  fun w =>
    (Return tt, {| __torus := __torus w; network := network w; env := env w;
                   emitted := emitted w ++ [ev]; logged := logged w |}).

Definition log (lvl : LogLevel) (args : list LogArg) : M unit :=
  fun w =>
    (Return tt, {| __torus := __torus w; network := network w; env := env w;
                   emitted := emitted w; logged := logged w ++ [(lvl, args)] |}).

Definition set___torus (t : Torus) : M unit :=
  fun w =>
    (Return tt, {| __torus := Some t; network := network w; env := env w;
                   emitted := emitted w; logged := logged w |}).

Definition set_network (n : Network) : M unit :=
  fun w =>
    (Return tt, {| __torus := __torus w; network := Some n; env := env w;
                   emitted := emitted w; logged := logged w |}).

Definition get_network : M (option Network) :=
  fun w => (Return (network w), w).

(** A method call or property access on a provider that may be
    [undefined]. *)
Definition deref (p : option Provider) : M Provider :=
  match p with
  | Some q => ret q
  | None => throw (TypeError "Cannot read properties of undefined")
  end.

(** *** Closure helpers *)

Definition isChainUnsupported (chainId : number) : bool :=
  negb (existsb (fun x => strict_eq (chain_id x) chainId) chains).

Definition getTorus : M Torus :=
  fun w =>
    match __torus w with
    | None => (Throw (Error "Torus instance not initialized"), w)
    | Some t => (Return t, w)
    end.

(** *** Connector methods *)

Definition setup : M unit :=
  let chainId :=
    match chainId options with
    | Some c => if truthy_number c then c else Num 1
    | None => Num 1
    end in
  let host := if truthy_string (host options) then host options else "mainnet" in
  t <- call (fun e =>
         let (t, e') :=
           Torus_new
             {| ctor_buttonPosition :=
                  match buttonPosition options with
                  | Some b => or_string b "bottom-left"
                  | None => "bottom-left"
                  end;
                ctor_modalZIndex := 9999999999999;
                ctor_apiKey := apiKey options;
                ctor_buttonSize := buttonSize options |} e in
         (Resolve t, e')) ;;
  set___torus t ;;;
  match find (fun x => strict_eq (chain_id x) chainId) chains with
  | Some chain =>
      set_network
        {| net_host := host;
           net_chainId := chainId;
           networkName := chain_name chain;
           tickerName := option_map currency_name (nativeCurrency chain);
           ticker := option_map currency_symbol (nativeCurrency chain);
           blockExplorer :=
             match blockExplorers_default_url chain with
             | Some u => or_string u ""
             | None => ""
             end |}
  | None =>
      log LogWarn [LogString "ChainId "; LogNumber chainId;
                   LogString " not found in chain list"]
  end.

Definition getProvider : M (option Provider) :=
  torusInstance <- getTorus ;;
  initialized <- read (isInitialized torusInstance) ;;
  (if negb initialized
   then nw <- get_network ;;
        call (init torusInstance
                {| init_params := TorusParams_opt options; init_network := nw |})
   else ret tt) ;;;
  (match option_map showTorusButton_param (TorusParams_opt options) with
   | Some (Some false) => ret tt
   | _ => call (showTorusButton torusInstance)
   end) ;;;
  read (provider_of torusInstance).

(** The callback of [raw.reduce] in [getAccounts], run over the array
    with the accumulator [acc]; [acc.push] appends. *)
Fixpoint reduce_accounts (raw : list (option string)) (acc : list Address)
  : completion (list Address) :=
  match raw with
  | [] => Return acc
  | address :: rest =>
      match address with
      | Some a =>
          if truthy_string a
          then match getAddress a with
               | Some c => reduce_accounts rest (acc ++ [c])
               | None => Throw (InvalidAddressError a)
               end
          else reduce_accounts rest acc
      | None => reduce_accounts rest acc
      end
  end.

Definition getAccounts : M (list Address) :=
  provider <- getProvider ;;
  p <- deref provider ;;
  raw <- call (request_eth_accounts p) ;;
  match raw with
  | None => ret []
  | Some l =>
      if Nat.eqb (length l) 0 then ret []
      else fun w => (reduce_accounts l [], w)
  end.

(** What the specification says [getAccounts] returns, in its words:
    the entries of the raw list that are neither null nor the empty
    string, in order, each replaced by its checksum form. *)
Fixpoint nonempty_entries (raw : list (option string)) : list string :=
  match raw with
  | [] => []
  | Some a :: rest =>
      if truthy_string a then a :: nonempty_entries rest
      else nonempty_entries rest
  | None :: rest => nonempty_entries rest
  end.

(** [checksum_of a c]: [c] is the checksum form of [a]. *)
Definition checksum_of (a : string) (c : Address) : Prop :=
  getAddress a = Some c.

Definition getChainId : M number :=
  provider <- getProvider ;;
  p <- deref provider ;;
  chainId <- call (request_eth_chainId p) ;;
  log LogInfo [LogString "chainId"; LogString chainId] ;;;
  ret (Number chainId).

Definition isAuthorized : M bool :=
  try_catch
    (provider <- getProvider ;;
     accounts <- getAccounts ;;
     ret (Nat.ltb 0 (length accounts)
          && match provider with Some _ => true | None => false end))
    (fun _ => ret false).

(** *** The same methods, called without being awaited at once

    [getProvider], [getAccounts], [getChainId] and [isAuthorized] above
    are the methods called and awaited at once, as the framework calls
    them and as [connect] calls [getProvider].  Where the connector calls
    a method and goes on before the promise has settled, the call runs
    only up to its first [await]; that is the method with [_async] below,
    which returns the promise. *)

(** Lines 168 to 172 of [getProvider]: the button and the provider. *)
Definition getProvider_tail (torusInstance : Torus) : M (option Provider) :=
  (match option_map showTorusButton_param (TorusParams_opt options) with
   | Some (Some false) => ret tt
   | _ => call (showTorusButton torusInstance)
   end) ;;;
  read (provider_of torusInstance).

(** [this.getProvider()]: with an SDK that is not initialized the call
    stops at [await torusInstance.init(...)], with [init] called and
    pending; with an initialized SDK it runs to its end. *)
Definition getProvider_async : M (Promise (option Provider)) :=
  async
    (torusInstance <- getTorus ;;
     initialized <- read (isInitialized torusInstance) ;;
     if negb initialized
     then nw <- get_network ;;
          begin (init_begin torusInstance
                   {| init_params := TorusParams_opt options;
                      init_network := nw |}) ;;;
          suspend (call (init_end torusInstance) ;;;
                   getProvider_tail torusInstance)
     else provider <- getProvider_tail torusInstance ;;
          resolved provider).

(** Lines 132 to 146 of [getAccounts], after [await this.getProvider()]. *)
Definition getAccounts_resume (provider : option Provider)
  : M (list Address) :=
  p <- deref provider ;;
  raw <- call (request_eth_accounts p) ;;
  match raw with
  | None => ret []
  | Some l =>
      if Nat.eqb (length l) 0 then ret []
      else fun w => (reduce_accounts l [], w)
  end.

(** [this.getAccounts()]: the call stops at [await this.getProvider()],
    when [getProvider] has been called. *)
Definition getAccounts_async : M (Promise (list Address)) :=
  async
    (pending <- getProvider_async ;;
     suspend (provider <- await pending ;; getAccounts_resume provider)).

(** Lines 151 to 155 of [getChainId], after [await this.getProvider()]. *)
Definition getChainId_resume (provider : option Provider) : M number :=
  p <- deref provider ;;
  chainId <- call (request_eth_chainId p) ;;
  log LogInfo [LogString "chainId"; LogString chainId] ;;;
  ret (Number chainId).

(** [this.getChainId()]. *)
Definition getChainId_async : M (Promise number) :=
  async
    (pending <- getProvider_async ;;
     suspend (provider <- await pending ;; getChainId_resume provider)).

(** [this.isAuthorized()]: the call stops at [await this.getProvider()],
    inside the [try]. *)
Definition isAuthorized_async : M (Promise bool) :=
  async
    (pending <- getProvider_async ;;
     suspend
       (try_catch
          (provider <- await pending ;;
           accounts <- getAccounts ;;
           ret (Nat.ltb 0 (length accounts)
                && match provider with Some _ => true | None => false end))
          (fun _ => ret false))).

(** The promise that the un-awaited [isAuthorized()] of [switchChain]
    returns when it is called in the world [w]. *)
Definition floating_isAuthorized (w : World) : Promise bool :=
  match fst (isAuthorized_async w) with
  | Return p => p
  | Throw e => Settled (Throw e)
  end.

(** The object literal handed to [torusInstance.setProvider]. *)
Definition setProvider_args (chain : Chain) (chainId : number)
  : SetProviderArgs :=
  {| sp_host := or_string (hd "" (rpcUrls_default_http chain)) "";
     sp_chainId := chainId;
     sp_networkName := chain_name chain |}.

(** The [catch] block of [switchChain]. *)
Definition switchChain_catch (error : error) : M Chain :=
  log LogErr [LogString "Error: Cannot change chain"; LogError error] ;;;
  throw (SwitchChainError error).

Definition switchChain (chainId : number) : M Chain :=
  try_catch
    (match find (fun x => strict_eq (chain_id x) chainId) chains with
     | None => throw (SwitchChainError (Error "chain not found on connector."))
     | Some chain =>
         authorized <- isAuthorized_async ;;
         meanwhile authorized
           ((if negb (truthy_promise authorized)
             then throw (Error "Please login first")
             else ret tt) ;;;
            torusInstance <- getTorus ;;
            call (setProvider torusInstance
                    (setProvider_args chain chainId)) ;;;
            ret chain)
     end)
    switchChain_catch.

(** "The underlying SDK [setProvider] call succeeds": the call that
    [switchChain] makes for the target [chainId] from the world [w], on
    the instance in [__torus], with the SDK in the state in which the
    un-awaited [isAuthorized()] has left it when it stopped at its first
    [await] (an [init] it has called is still pending). *)
Definition setProvider_succeeds (chainId : number) (w : World) : bool :=
  match find (fun x => strict_eq (chain_id x) chainId) chains, __torus w with
  | Some chain, Some t =>
      match fst (setProvider t (setProvider_args chain chainId)
                   (env (snd (isAuthorized_async w)))) with
      | Resolve _ => true
      | Reject _ => false
      end
  | _, _ => false
  end.

(** [typeof this.switchChain === "function"]: the connector object
    always carries the method defined above. *)
Definition switchChain_is_function : bool := true.

Definition connect (params_chainId : option number)
  : M (list Address * number) :=
  provider <- getProvider ;;
  t <- getTorus ;;
  loggedIn <- read (isLoggedIn t) ;;
  (if negb loggedIn
   then t' <- getTorus ;; call (login t')
   else ret tt) ;;;
  p <- deref provider ;;
  call (provider_on p "accountsChanged" onAccountsChanged_listener) ;;;
  call (provider_on p "chainChanged" onChainChanged_listener) ;;;
  p1 <- getAccounts_async ;;
  p2 <- getChainId_async ;;
  r <- await (Promise_all p1 p2) ;;
  let accounts := fst r in
  let connectedChainId := snd r in
  let unsupported := isChainUnsupported connectedChainId in
  let id := connectedChainId in
  r' <- (match params_chainId with
         | Some chainId =>
             if truthy_number chainId
                && strict_neq connectedChainId chainId
                && switchChain_is_function
             then chain <- switchChain chainId ;;
                  ret (chain_id chain, isChainUnsupported (chain_id chain))
             else ret (id, unsupported)
         | None => ret (id, unsupported)
         end) ;;
  if snd r'
  then throw (SwitchChainError (Error "chain not found on connector."))
  else ret (accounts, fst r').

(** The two halves of [connect]: up to the destructuring of
    [Promise.all] (lines 85 to 97), and from there on (lines 98 to 121). *)
Definition connect_lookups : M (list Address * number) :=
  provider <- getProvider ;;
  t <- getTorus ;;
  loggedIn <- read (isLoggedIn t) ;;
  (if negb loggedIn
   then t' <- getTorus ;; call (login t')
   else ret tt) ;;;
  p <- deref provider ;;
  call (provider_on p "accountsChanged" onAccountsChanged_listener) ;;;
  call (provider_on p "chainChanged" onChainChanged_listener) ;;;
  p1 <- getAccounts_async ;;
  p2 <- getChainId_async ;;
  await (Promise_all p1 p2).

Definition connect_resolve (params_chainId : option number)
    (r : list Address * number) : M (list Address * number) :=
  let accounts := fst r in
  let connectedChainId := snd r in
  let unsupported := isChainUnsupported connectedChainId in
  let id := connectedChainId in
  r' <- (match params_chainId with
         | Some chainId =>
             if truthy_number chainId
                && strict_neq connectedChainId chainId
                && switchChain_is_function
             then chain <- switchChain chainId ;;
                  ret (chain_id chain, isChainUnsupported (chain_id chain))
             else ret (id, unsupported)
         | None => ret (id, unsupported)
         end) ;;
  if snd r'
  then throw (SwitchChainError (Error "chain not found on connector."))
  else ret (accounts, fst r').

Definition disconnect : M unit :=
  fun w =>
    match __torus w with
    | Some t => call (logout t) w
    | None => (Return tt, w)
    end.

Definition onAccountsChanged (accounts : list string) : M unit :=
  match accounts with
  | [] => emit EmitDisconnect
  | a0 :: _ =>
      if negb (truthy_string a0) then emit EmitDisconnect
      else match getAddress a0 with
           | Some c => emit (EmitChangeAccounts [c])
           | None => throw (InvalidAddressError a0)
           end
  end.

Definition onChainChanged (chainId : string) : M unit :=
  let id := Number chainId in
  let unsupported := isChainUnsupported id in
  log LogInfo [LogString "chainChanged"; LogNumber id; LogBool unsupported] ;;;
  emit (EmitChangeChainId id).

Definition onConnect (connectInfo_chainId : string) : M unit :=
  accounts <- getAccounts ;;
  let chainId := Number connectInfo_chainId in
  emit (EmitConnect accounts chainId).

Definition onDisconnect : M unit := emit EmitDisconnect.

(** [keeps_closure m]: running [m] changes neither [__torus] nor
    [network]. *)
Definition keeps_closure {A : Type} (m : M A) : Prop :=
  forall w, __torus (snd (m w)) = __torus w /\ network (snd (m w)) = network w.

(** *** Sequences of calls *)

(** One call of a connector method, by the framework or by the provider
    whose events the connector listens to. *)
Inductive Call : Type :=
| call_setup
| call_connect (params_chainId : option number)
| call_disconnect
| call_getAccounts
| call_getChainId
| call_getProvider
| call_isAuthorized
| call_switchChain (chainId : number)
| call_onAccountsChanged (accounts : list string)
| call_onChainChanged (chainId : string)
| call_onConnect (connectInfo_chainId : string)
| call_onDisconnect.

(** A call whose value the caller drops. *)
Definition discard {A : Type} (m : M A) : M unit := bind m (fun _ => ret tt).

Definition perform (c : Call) : M unit :=
  match c with
  | call_setup => setup
  | call_connect params_chainId => discard (connect params_chainId)
  | call_disconnect => disconnect
  | call_getAccounts => discard getAccounts
  | call_getChainId => discard getChainId
  | call_getProvider => discard getProvider
  | call_isAuthorized => discard isAuthorized
  | call_switchChain chainId => discard (switchChain chainId)
  | call_onAccountsChanged accounts => onAccountsChanged accounts
  | call_onChainChanged chainId => onChainChanged chainId
  | call_onConnect connectInfo_chainId => onConnect connectInfo_chainId
  | call_onDisconnect => onDisconnect
  end.

(** The world after a sequence of calls; a call that throws leaves the
    world it has reached, and the next call starts from there. *)
Fixpoint run (calls : list Call) (w : World) : World :=
  match calls with
  | [] => w
  | c :: rest => run rest (snd (perform c w))
  end.

Definition is_setup (c : Call) : bool :=
  match c with
  | call_setup => true
  | _ => false
  end.

(** The four event relays. *)
Definition is_relay (c : Call) : bool :=
  match c with
  | call_onAccountsChanged _ | call_onChainChanged _
  | call_onConnect _ | call_onDisconnect => true
  | _ => false
  end.

(** The chain id and the host that [setup] resolves (lines 57 and 58). *)
Definition setup_chainId : number :=
  match chainId options with
  | Some c => if truthy_number c then c else Num 1
  | None => Num 1
  end.

Definition setup_host : string :=
  if truthy_string (host options) then host options else "mainnet".

(** [describes n chain]: the network descriptor [n] carries the id, the
    name, the currency and the explorer of [chain]. *)
Definition describes (n : Network) (chain : Chain) : Prop :=
  net_chainId n = chain_id chain /\
  networkName n = chain_name chain /\
  tickerName n = option_map currency_name (nativeCurrency chain) /\
  ticker n = option_map currency_symbol (nativeCurrency chain) /\
  blockExplorer n = match blockExplorers_default_url chain with
                    | Some u => or_string u ""
                    | None => ""
                    end.

(** The closure variable [network] is undefined, or it describes the
    first chain of the list with the id that [setup] resolves, under the
    host that [setup] resolves. *)
Definition network_consistent (w : World) : Prop :=
  match network w with
  | None => True
  | Some n =>
      net_chainId n = setup_chainId /\
      net_host n = setup_host /\
      exists chain,
        find (fun x => strict_eq (chain_id x) setup_chainId) chains
          = Some chain /\
        describes n chain
  end.

(** [leaves f m]: running [m] does not change the component [f] of the
    world. *)
Definition leaves {A B : Type} (f : World -> B) (m : M A) : Prop :=
  forall w, f (snd (m w)) = f w.

(** [throws_only I P m]: started in a world that satisfies [I], [m]
    throws nothing but errors that satisfy [P]. *)
Definition throws_only {A : Type} (I : World -> Prop) (P : error -> Prop)
    (m : M A) : Prop :=
  forall w e w', I w -> m w = (Throw e, w') -> P e.

Definition initialized (w : World) : Prop := __torus w <> None.

(** The kinds of errors, by where they come from.  [U] says which
    errors the instance access [getTorus] can throw: the missing-instance
    error in general, none once the instance exists. *)
Definition missing_instance (e : error) : Prop := e = uninitialized.

Definition no_error (e : error) : Prop := False.

(** A rejection of the SDK. *)
Definition sdk_error (e : error) : Prop := exists reason, e = SdkError reason.

(** What [getProvider] throws. *)
Definition provider_error (U : error -> Prop) (e : error) : Prop :=
  U e \/ sdk_error e.

(** What a request on the provider throws: also a [TypeError], when the
    provider is undefined. *)
Definition request_error (U : error -> Prop) (e : error) : Prop :=
  provider_error U e \/ exists message, e = TypeError message.

(** What [getAccounts] throws: also an address that [getAddress]
    refuses. *)
Definition accounts_error (U : error -> Prop) (e : error) : Prop :=
  request_error U e \/ exists a, e = InvalidAddressError a.

(** The causes that [switchChain] wraps, and what it throws. *)
Definition switch_cause (U : error -> Prop) (e : error) : Prop :=
  e = SwitchChainError chain_not_found \/ U e \/ sdk_error e.

Definition switch_error (U : error -> Prop) (e : error) : Prop :=
  exists cause, e = SwitchChainError cause /\ switch_cause U cause.

(** What [connect] throws. *)
Definition connect_error (U : error -> Prop) (e : error) : Prop :=
  accounts_error U e \/ e = SwitchChainError chain_not_found \/
  switch_error U e.

(** What each call can throw. *)
Definition may_throw (U : error -> Prop) (c : Call) (e : error) : Prop :=
  match c with
  | call_setup | call_isAuthorized | call_onChainChanged _
  | call_onDisconnect => False
  | call_disconnect => sdk_error e
  | call_getProvider => provider_error U e
  | call_getChainId => request_error U e
  | call_getAccounts | call_onConnect _ => accounts_error U e
  | call_onAccountsChanged _ => exists a, e = InvalidAddressError a
  | call_switchChain _ => switch_error U e
  | call_connect _ => connect_error U e
  end.

End Connector.

Arguments World {sdk}.
Arguments M {sdk} A.
Arguments Promise {sdk} A.
Arguments Settled {sdk A} c.
Arguments Pending {sdk A} rest.

(* ================================================================== *)
(** ** A simulated wallet, to run the connector on concrete inputs *)
(* ================================================================== *)

(** The state of the simulated SDK: one instance, whose provider exists
    once [init] has run; what the wallet answers to [eth_accounts] and
    [eth_chainId]; whether it rejects [setProvider]. *)
Record SimEnv : Type := {
  sim_initialized : bool;
  sim_loggedIn : bool;
  sim_accounts : option (list (option string));
  sim_chainId : string;
  sim_rejects_setProvider : bool;
  sim_listeners : list (string * Listener)
}.

Definition sim_set_initialized (b : bool) (e : SimEnv) : SimEnv :=
  {| sim_initialized := b; sim_loggedIn := sim_loggedIn e;
     sim_accounts := sim_accounts e; sim_chainId := sim_chainId e;
     sim_rejects_setProvider := sim_rejects_setProvider e;
     sim_listeners := sim_listeners e |}.

Definition sim_set_loggedIn (b : bool) (e : SimEnv) : SimEnv :=
  {| sim_initialized := sim_initialized e; sim_loggedIn := b;
     sim_accounts := sim_accounts e; sim_chainId := sim_chainId e;
     sim_rejects_setProvider := sim_rejects_setProvider e;
     sim_listeners := sim_listeners e |}.

Definition sim_add_listener (ev : string) (l : Listener) (e : SimEnv) : SimEnv :=
  {| sim_initialized := sim_initialized e; sim_loggedIn := sim_loggedIn e;
     sim_accounts := sim_accounts e; sim_chainId := sim_chainId e;
     sim_rejects_setProvider := sim_rejects_setProvider e;
     sim_listeners := sim_listeners e ++ [(ev, l)] |}.

Definition SimTorus : TorusEmbed := {|
  Env := SimEnv;
  Torus := unit;
  Provider := unit;
  Torus_new := fun _ e => (tt, sim_set_initialized false e);
  isLoggedIn := fun _ e => sim_loggedIn e;
  isInitialized := fun _ e => sim_initialized e;
  provider_of := fun _ e => if sim_initialized e then Some tt else None;
  init_begin := fun _ _ e => e;
  init_end := fun _ e => (Resolve tt, sim_set_initialized true e);
  login := fun _ e => (Resolve tt, sim_set_loggedIn true e);
  logout := fun _ e => (Resolve tt, sim_set_loggedIn false e);
  showTorusButton := fun _ e => (Resolve tt, e);
  setProvider := fun _ _ e =>
    if sim_rejects_setProvider e
    then (Reject "setProvider rejected", e)
    else (Resolve tt, e);
  request_eth_accounts := fun _ e =>
    if sim_loggedIn e then (Resolve (sim_accounts e), e)
    else (Resolve (Some []), e);
  request_eth_chainId := fun _ e => (Resolve (sim_chainId e), e);
  provider_on := fun _ ev l e => (Resolve tt, sim_add_listener ev l e)
|}.

(** The same wallet behind a stricter SDK: [setProvider] is refused as
    long as [init] has not completed. *)
Definition StrictTorus : TorusEmbed := {|
  Env := SimEnv;
  Torus := unit;
  Provider := unit;
  Torus_new := fun _ e => (tt, sim_set_initialized false e);
  isLoggedIn := fun _ e => sim_loggedIn e;
  isInitialized := fun _ e => sim_initialized e;
  provider_of := fun _ e => if sim_initialized e then Some tt else None;
  init_begin := fun _ _ e => e;
  init_end := fun _ e => (Resolve tt, sim_set_initialized true e);
  login := fun _ e => (Resolve tt, sim_set_loggedIn true e);
  logout := fun _ e => (Resolve tt, sim_set_loggedIn false e);
  showTorusButton := fun _ e => (Resolve tt, e);
  setProvider := fun _ _ e =>
    if sim_initialized e then (Resolve tt, e)
    else (Reject "not initialized", e);
  request_eth_accounts := fun _ e =>
    if sim_loggedIn e then (Resolve (sim_accounts e), e)
    else (Resolve (Some []), e);
  request_eth_chainId := fun _ e => (Resolve (sim_chainId e), e);
  provider_on := fun _ ev l e => (Resolve tt, sim_add_listener ev l e)
|}.

(** An SDK that only records, in order, what is called on it and when
    [init] settles. *)
Record TraceEnv : Type := {
  trace_initialized : bool;
  trace_calls : list string
}.

Definition traced (name : string) (e : TraceEnv) : TraceEnv :=
  {| trace_initialized := trace_initialized e;
     trace_calls := trace_calls e ++ [name] |}.

Definition TraceTorus : TorusEmbed := {|
  Env := TraceEnv;
  Torus := unit;
  Provider := unit;
  Torus_new := fun _ e =>
    (tt, {| trace_initialized := false;
            trace_calls := trace_calls e ++ ["new Torus"] |});
  isLoggedIn := fun _ _ => false;
  isInitialized := fun _ e => trace_initialized e;
  provider_of := fun _ e => if trace_initialized e then Some tt else None;
  init_begin := fun _ _ e => traced "init" e;
  init_end := fun _ e =>
    (Resolve tt, {| trace_initialized := true;
                    trace_calls := trace_calls e ++ ["init settled"] |});
  login := fun _ e => (Resolve tt, traced "login" e);
  logout := fun _ e => (Resolve tt, traced "logout" e);
  showTorusButton := fun _ e => (Resolve tt, traced "showTorusButton" e);
  setProvider := fun _ _ e => (Resolve tt, traced "setProvider" e);
  request_eth_accounts := fun _ e =>
    (Resolve (Some [Some "0x52908400098527886e0f7030069857d2e4169ee7"]),
     traced "eth_accounts" e);
  request_eth_chainId := fun _ e => (Resolve "0x1", traced "eth_chainId" e);
  provider_on := fun _ ev _ e => (Resolve tt, traced ev e)
|}.

(** A stand-in for [Number] on the strings a wallet answers with:
    decimal digits, or ["0x"] and hexadecimal digits; the empty string
    gives [0], every other string [NaN]. *)
Fixpoint decimal_digits (s : string) (acc : Z) : number :=
  match s with
  | EmptyString => Num acc
  | String c rest =>
      let n := Z.of_nat (Ascii.nat_of_ascii c) in
      if (48 <=? n)%Z && (n <=? 57)%Z
      then decimal_digits rest (10 * acc + (n - 48))%Z
      else NaN
  end.

Definition hex_value (c : Ascii.ascii) : option Z :=
  let n := Z.of_nat (Ascii.nat_of_ascii c) in
  if (48 <=? n)%Z && (n <=? 57)%Z then Some (n - 48)%Z
  else if (65 <=? n)%Z && (n <=? 70)%Z then Some (n - 55)%Z
  else if (97 <=? n)%Z && (n <=? 102)%Z then Some (n - 87)%Z
  else None.

Fixpoint hex_digits (s : string) (acc : Z) : number :=
  match s with
  | EmptyString => Num acc
  | String c rest =>
      match hex_value c with
      | Some d => hex_digits rest (16 * acc + d)%Z
      | None => NaN
      end
  end.

Definition sample_Number (s : string) : number :=
  match s with
  | String "0"%char (String "x"%char EmptyString) => NaN
  | String "0"%char (String "x"%char body) => hex_digits body 0
  | _ => decimal_digits s 0
  end.

Definition is_hex_digit (c : Ascii.ascii) : bool :=
  let n := Ascii.nat_of_ascii c in
  ((48 <=? n) && (n <=? 57) || (65 <=? n) && (n <=? 70)
   || (97 <=? n) && (n <=? 102))%nat.

Fixpoint all_hex (s : string) : bool :=
  match s with
  | EmptyString => true
  | String c rest => is_hex_digit c && all_hex rest
  end.

Definition upper_hex (c : Ascii.ascii) : Ascii.ascii :=
  let n := Ascii.nat_of_ascii c in
  if ((97 <=? n) && (n <=? 102))%nat then Ascii.ascii_of_nat (n - 32) else c.

Fixpoint map_string (f : Ascii.ascii -> Ascii.ascii) (s : string) : string :=
  match s with
  | EmptyString => EmptyString
  | String c rest => String (f c) (map_string f rest)
  end.

(** A stand-in for [getAddress]: it accepts ["0x"] followed by forty
    hexadecimal digits, as viem does, and normalises the case of the
    digits (to upper case; the real mixed-case checksum is a Keccak-256
    computation inside viem, which none of the properties depends on). *)
Definition sample_getAddress (s : string) : option Address :=
  match s with
  | String "0"%char (String "x"%char body) =>
      if Nat.eqb (String.length body) 40 && all_hex body
      then Some (String.append "0x" (map_string upper_hex body))
      else None
  | _ => None
  end.

Definition sample_imports : Imports := {|
  Number := sample_Number;
  getAddress := sample_getAddress
|}.

Definition mainnet : Chain := {|
  chain_id := Num 1;
  chain_name := "Ethereum";
  nativeCurrency := Some {| currency_name := "Ether"; currency_symbol := "ETH" |};
  blockExplorers_default_url := Some "https://etherscan.io";
  rpcUrls_default_http := ["https://cloudflare-eth.com"]
|}.

Definition polygon : Chain := {|
  chain_id := Num 137;
  chain_name := "Polygon";
  nativeCurrency := Some {| currency_name := "POL"; currency_symbol := "POL" |};
  blockExplorers_default_url := Some "https://polygonscan.com";
  rpcUrls_default_http := ["https://polygon-rpc.com"]
|}.

Definition sample_cfg : TorusConnectorOptions := {|
  chains := [mainnet; polygon];
  options := {| host := "mainnet"; chainId := Some (Num 1);
                TorusParams_opt := None; buttonPosition := None;
                apiKey := None; buttonSize := None |}
|}.

Definition alice : string := "0x52908400098527886e0f7030069857d2e4169ee7".
Definition alice_checksum : Address :=
  "0x52908400098527886E0F7030069857D2E4169EE7".

(** A wallet with one account, on chain 1, not yet logged in. *)
Definition sim_env0 : SimEnv := {|
  sim_initialized := false;
  sim_loggedIn := false;
  sim_accounts := Some [Some alice; Some ""; None];
  sim_chainId := "0x1";
  sim_rejects_setProvider := false;
  sim_listeners := []
|}.

(** The connector before [setup], and after it. *)
Definition world_before_setup : World (sdk := SimTorus) :=
  @Build_World SimTorus None None sim_env0 [] [].

Definition world_after_setup : World (sdk := SimTorus) :=
  snd (setup (cfg := sample_cfg) world_before_setup).

(** The same wallet, rejecting every [setProvider]. *)
Definition world_rejecting_setProvider : World (sdk := SimTorus) :=
  @Build_World SimTorus (Some tt) (network world_after_setup)
    {| sim_initialized := false; sim_loggedIn := false;
       sim_accounts := Some [Some alice];
       sim_chainId := "0x1";
       sim_rejects_setProvider := true;
       sim_listeners := [] |}
    [] [].

(** A wallet on chain 5, which is not configured. *)
Definition world_on_chain_5 : World (sdk := SimTorus) :=
  @Build_World SimTorus (Some tt) (network world_after_setup)
    {| sim_initialized := false; sim_loggedIn := false;
       sim_accounts := Some [Some alice];
       sim_chainId := "0x5";
       sim_rejects_setProvider := false;
       sim_listeners := [] |}
    [] [].

(** A wallet that answers [eth_chainId] with something that is not a
    number. *)
Definition world_malformed_chain : World (sdk := SimTorus) :=
  @Build_World SimTorus (Some tt) (network world_after_setup)
    {| sim_initialized := false; sim_loggedIn := false;
       sim_accounts := Some [Some alice];
       sim_chainId := "mainnet";
       sim_rejects_setProvider := false;
       sim_listeners := [] |}
    [] [].

(** The connector after [setup], behind the stricter SDK and behind the
    recording one. *)
Definition strict_world_after_setup : World (sdk := StrictTorus) :=
  snd (setup (sdk := StrictTorus) (cfg := sample_cfg)
         (@Build_World StrictTorus None None sim_env0 [] [])).

Definition trace_world_after_setup : World (sdk := TraceTorus) :=
  snd (setup (sdk := TraceTorus) (cfg := sample_cfg)
         (@Build_World TraceTorus None None
            {| trace_initialized := false; trace_calls := [] |} [] [])).

(** The connector after [setup] and a first [connect()]. *)
Definition world_connected : World (sdk := SimTorus) :=
  snd (connect (imports := sample_imports) (cfg := sample_cfg) None
         world_after_setup).

(* ================================================================== *)
(** ** Properties of the connector *)
(* ================================================================== *)

Section ConnectorProperties.

Context {sdk : TorusEmbed} {imports : Imports} {cfg : TorusConnectorOptions}.

(** *** Running the monad *)

Lemma bind_Return {A B : Type} (m : M A) (k : A -> M B) w a w' :
  m w = (Return a, w') -> bind m k w = k a w'.
Proof. intros H. unfold bind. now rewrite H. Qed.

Lemma bind_Throw {A B : Type} (m : M A) (k : A -> M B) w e w' :
  m w = (Throw e, w') -> bind m k w = (Throw e, w').
Proof. intros H. unfold bind. now rewrite H. Qed.

Lemma try_catch_Return {A : Type} (m : M A) h w a w' :
  m w = (Return a, w') -> try_catch m h w = (Return a, w').
Proof. intros H. unfold try_catch. now rewrite H. Qed.

Lemma try_catch_Throw {A : Type} (m : M A) h w e w' :
  m w = (Throw e, w') -> try_catch m h w = h e w'.
Proof. intros H. unfold try_catch. now rewrite H. Qed.

Lemma bind_bind {A B C : Type} (m : M A) (k : A -> M B) (h : B -> M C) w :
  bind (bind m k) h w = bind m (fun a => bind (k a) h) w.
Proof. unfold bind. now destruct (m w) as [[a | e] w']. Qed.

Lemma bind_ext {A B : Type} (m : M A) (k k' : A -> M B) w :
  (forall a w', k a w' = k' a w') -> bind m k w = bind m k' w.
Proof. intros H. unfold bind. destruct (m w) as [[a | e] w']; [apply H | reflexivity]. Qed.

(** *** What leaves the closure variables alone *)

Lemma keeps_ret {A : Type} (a : A) : keeps_closure (ret a).
Proof. intros w. now split. Qed.

Lemma keeps_throw {A : Type} e : keeps_closure (@throw _ A e).
Proof. intros w. now split. Qed.

Lemma keeps_call {A : Type} (op : Env -> reply A * Env) :
  keeps_closure (call op).
Proof. intros w. unfold call. destruct (op (env w)). cbn. now split. Qed.

Lemma keeps_read {A : Type} (f : Env -> A) : keeps_closure (read f).
Proof. intros w. now split. Qed.

Lemma keeps_emit ev : keeps_closure (emit ev).
Proof. intros w. now split. Qed.

Lemma keeps_log lvl args : keeps_closure (log lvl args).
Proof. intros w. now split. Qed.

Lemma keeps_getTorus : keeps_closure getTorus.
Proof.
  intros w. unfold getTorus.
  destruct (__torus w) eqn:E; cbn; rewrite E; now split.
Qed.

Lemma keeps_bind {A B : Type} (m : M A) (k : A -> M B) :
  keeps_closure m -> (forall a, keeps_closure (k a)) -> keeps_closure (bind m k).
Proof.
  intros Hm Hk w. unfold bind. specialize (Hm w).
  destruct (m w) as [[a | e] w1]; simpl in Hm.
  - destruct (Hk a w1) as [H1 H2]. destruct Hm as [H3 H4].
    split; congruence.
  - exact Hm.
Qed.

Lemma keeps_try_catch {A : Type} (m : M A) h :
  keeps_closure m -> (forall e, keeps_closure (h e)) ->
  keeps_closure (try_catch m h).
Proof.
  intros Hm Hh w. unfold try_catch. specialize (Hm w).
  destruct (m w) as [[a | e] w1]; simpl in Hm.
  - exact Hm.
  - destruct (Hh e w1) as [H1 H2]. destruct Hm as [H3 H4].
    split; congruence.
Qed.

Lemma keeps_begin f : keeps_closure (begin f).
Proof. intros w. now split. Qed.

Lemma keeps_async {A : Type} (body : M (Promise A)) :
  keeps_closure body -> keeps_closure (async body).
Proof.
  intros Hb w. unfold async. specialize (Hb w).
  now destruct (body w) as [[p | e] w1].
Qed.

Lemma keeps_deref p : keeps_closure (deref p).
Proof. destruct p; intros w; now split. Qed.

Create HintDb closure.
#[local] Hint Resolve keeps_ret keeps_throw keeps_call keeps_read keeps_emit
  keeps_log keeps_getTorus keeps_begin keeps_deref : closure.

Ltac closure :=
  repeat first
    [ apply keeps_bind; [| intros ?]
    | apply keeps_try_catch; [| intros ?]
    | match goal with |- keeps_closure (if ?b then _ else _) => destruct b end
    | match goal with |- keeps_closure (match ?x with _ => _ end) => destruct x end
    | solve [auto with closure]
    | (intros ?; now split) ].

Lemma keeps_getProvider : keeps_closure getProvider.
Proof. unfold getProvider. closure. Qed.

Lemma keeps_getAccounts : keeps_closure getAccounts.
Proof. unfold getAccounts. pose proof keeps_getProvider. closure. Qed.

Lemma keeps_isAuthorized : keeps_closure isAuthorized.
Proof.
  unfold isAuthorized.
  pose proof keeps_getProvider. pose proof keeps_getAccounts. closure.
Qed.

(** *** Before [setup] *)

Lemma getTorus_uninitialized w :
  __torus w = None -> getTorus w = (Throw uninitialized, w).
Proof. intros H. unfold getTorus. now rewrite H. Qed.

Lemma getTorus_initialized w t :
  __torus w = Some t -> getTorus w = (Return t, w).
Proof. intros H. unfold getTorus. now rewrite H. Qed.

Lemma getProvider_uninitialized w :
  __torus w = None -> getProvider w = (Throw uninitialized, w).
Proof.
  intros H. unfold getProvider.
  now rewrite (bind_Throw _ _ _ _ _ (getTorus_uninitialized w H)).
Qed.

Lemma getAccounts_uninitialized w :
  __torus w = None -> getAccounts w = (Throw uninitialized, w).
Proof.
  intros H. unfold getAccounts.
  now rewrite (bind_Throw _ _ _ _ _ (getProvider_uninitialized w H)).
Qed.

Lemma isAuthorized_uninitialized w :
  __torus w = None -> isAuthorized w = (Return false, w).
Proof.
  intros H. unfold isAuthorized.
  erewrite try_catch_Throw; [reflexivity |].
  now rewrite (bind_Throw _ _ _ _ _ (getProvider_uninitialized w H)).
Qed.

(** *** The async calls *)

Lemma keeps_bind_val {A B : Type} (m : M A) (k : A -> M B) :
  keeps_closure m ->
  (forall w a w', m w = (Return a, w') -> keeps_closure (k a)) ->
  keeps_closure (bind m k).
Proof.
  intros Hm Hk w. unfold bind. specialize (Hm w).
  destruct (m w) as [[a | e] w1] eqn:E; simpl in Hm.
  - destruct (Hk w a w1 E w1) as [H1 H2]. destruct Hm as [H3 H4].
    split; congruence.
  - exact Hm.
Qed.

Lemma keeps_meanwhile {A B : Type} (p : Promise B) (m : M A) :
  keeps_closure (await p) -> keeps_closure m -> keeps_closure (meanwhile p m).
Proof.
  intros Hp Hm w. unfold meanwhile. specialize (Hm w).
  destruct (m w) as [c w1]. specialize (Hp w1).
  destruct (await p w1) as [c' w2]. cbn [snd] in *.
  destruct Hp, Hm. split; congruence.
Qed.

Lemma keeps_getProvider_tail t : keeps_closure (getProvider_tail t).
Proof. unfold getProvider_tail. closure. Qed.

(** An async call returns a promise; it does not throw. *)
Lemma async_returns {A : Type} (body : M (Promise A)) w :
  exists p, async body w = (Return p, snd (async body w)).
Proof.
  unfold async. destruct (body w) as [[p | e] w1]; now eexists.
Qed.

(** What the call [this.getProvider()] does before it hands back its
    promise, and what the promise is. *)
Lemma getProvider_async_run w :
  getProvider_async w =
    match __torus w with
    | None => (Return (Settled (Throw uninitialized)), w)
    | Some t =>
        if isInitialized t (env w)
        then (Return (Settled (fst (getProvider_tail t w))),
              snd (getProvider_tail t w))
        else (Return (Pending (bind (call (init_end t))
                                 (fun _ => getProvider_tail t))),
              snd (begin (init_begin t
                            {| init_params := TorusParams_opt options;
                               init_network := network w |}) w))
    end.
Proof.
  unfold getProvider_async, async, bind at 1, getTorus.
  destruct (__torus w) as [t |]; [| reflexivity].
  unfold bind at 1, read at 1. cbn [negb].
  destruct (isInitialized t (env w)); cbn [negb].
  - unfold bind, resolved, ret.
    now destruct (getProvider_tail t w) as [[o | e] w1].
  - reflexivity.
Qed.

(** The method built as [await this.getProvider()] followed by [rest]:
    its call is the call of [getProvider], and its promise is pending. *)
Lemma after_getProvider_async_run {A : Type}
    (rest : Promise (option Provider) -> M A) w :
  exists pending,
    getProvider_async w = (Return pending, snd (getProvider_async w)) /\
    async (bind getProvider_async (fun pending => suspend (rest pending))) w
      = (Return (Pending (rest pending)), snd (getProvider_async w)).
Proof.
  destruct (async_returns
              (bind getTorus (fun torusInstance =>
               bind (read (isInitialized torusInstance)) (fun initialized =>
               if negb initialized
               then bind get_network (fun nw =>
                    bind (begin (init_begin torusInstance
                                   {| init_params := TorusParams_opt options;
                                      init_network := nw |})) (fun _ =>
                    suspend (bind (call (init_end torusInstance)) (fun _ =>
                             getProvider_tail torusInstance))))
               else bind (getProvider_tail torusInstance) (fun provider =>
                    resolved provider)))) w) as (pending & Hp).
  fold getProvider_async in Hp.
  exists pending. split; [exact Hp |].
  unfold async at 1, bind at 1. now rewrite Hp.
Qed.

(** Calling a method and awaiting its promise at once is the method
    above. *)
Lemma await_getProvider_async w :
  bind getProvider_async await w = getProvider w.
Proof.
  unfold bind at 1. rewrite getProvider_async_run.
  destruct (__torus w) as [t |] eqn:Ht.
  - unfold getProvider.
    rewrite (bind_Return _ _ _ _ _ (getTorus_initialized w t Ht)).
    rewrite (bind_Return (read (isInitialized t)) _ w
               (isInitialized t (env w)) w eq_refl).
    change (bind
              match option_map showTorusButton_param (TorusParams_opt options)
              with
              | Some (Some false) => ret tt
              | _ => call (showTorusButton t)
              end (fun _ : unit => read (provider_of t)))
      with (getProvider_tail t).
    destruct (isInitialized t (env w)); cbn [negb await].
    + rewrite (bind_Return (ret tt) _ w tt w eq_refl).
      now destruct (getProvider_tail t w).
    + unfold bind, get_network, begin, call, init. cbn.
      now destruct (init_end t _) as [[[] | reason] e'].
  - now rewrite (getProvider_uninitialized w Ht).
Qed.

Lemma bind_cong {A B : Type} (m m' : M A) (k : A -> M B) w w' :
  m w = m' w' -> bind m k w = bind m' k w'.
Proof. intros H. unfold bind. now rewrite H. Qed.

Lemma try_catch_cong {A : Type} (m m' : M A) h w w' :
  m w = m' w' -> try_catch m h w = try_catch m' h w'.
Proof. intros H. unfold try_catch. now rewrite H. Qed.

Lemma await_pending_getProvider w pending :
  getProvider_async w = (Return pending, snd (getProvider_async w)) ->
  await pending (snd (getProvider_async w)) = getProvider w.
Proof.
  intros Hp. rewrite <- await_getProvider_async.
  now rewrite (bind_Return _ _ _ _ _ Hp).
Qed.

Lemma await_getAccounts_async w :
  bind getAccounts_async await w = getAccounts w.
Proof.
  destruct (after_getProvider_async_run
              (fun pending => bind (await pending) getAccounts_resume) w)
    as (pending & Hp & Heq).
  unfold getAccounts_async. rewrite (bind_Return _ _ _ _ _ Heq).
  cbn [await].
  change (getAccounts w) with (bind getProvider getAccounts_resume w).
  apply bind_cong. now apply await_pending_getProvider.
Qed.

Lemma await_getChainId_async w :
  bind getChainId_async await w = getChainId w.
Proof.
  destruct (after_getProvider_async_run
              (fun pending => bind (await pending) getChainId_resume) w)
    as (pending & Hp & Heq).
  unfold getChainId_async. rewrite (bind_Return _ _ _ _ _ Heq).
  cbn [await].
  change (getChainId w) with (bind getProvider getChainId_resume w).
  apply bind_cong. now apply await_pending_getProvider.
Qed.

Lemma await_isAuthorized_async w :
  bind isAuthorized_async await w = isAuthorized w.
Proof.
  destruct (after_getProvider_async_run
              (fun pending =>
                 try_catch
                   (bind (await pending) (fun provider =>
                    bind getAccounts (fun accounts =>
                    ret (Nat.ltb 0 (length accounts)
                         && match provider with
                            | Some _ => true
                            | None => false
                            end))))
                   (fun _ => ret false)) w)
    as (pending & Hp & Heq).
  unfold isAuthorized_async. rewrite (bind_Return _ _ _ _ _ Heq).
  cbn [await]. unfold isAuthorized.
  apply try_catch_cong, bind_cong. now apply await_pending_getProvider.
Qed.

(** Before [setup], the un-awaited [isAuthorized()] touches nothing: its
    call and the rest of it leave the world as it is. *)
Lemma isAuthorized_async_uninitialized w :
  __torus w = None ->
  exists p,
    isAuthorized_async w = (Return p, w) /\
    forall w0, await p w0 = (Return false, w0).
Proof.
  intros H.
  destruct (after_getProvider_async_run
              (fun pending =>
                 try_catch
                   (bind (await pending) (fun provider =>
                    bind getAccounts (fun accounts =>
                    ret (Nat.ltb 0 (length accounts)
                         && match provider with
                            | Some _ => true
                            | None => false
                            end))))
                   (fun _ => ret false)) w)
    as (pending & Hp & Heq).
  fold isAuthorized_async in Heq.
  rewrite getProvider_async_run, H in Hp. cbn [snd] in Hp.
  injection Hp as <-.
  rewrite getProvider_async_run, H in Heq. cbn [snd] in Heq.
  eexists. split; [exact Heq |]. reflexivity.
Qed.

(** C3: every operation that needs the SDK instance, called while
    [__torus] is still undefined, throws the error "Torus instance not
    initialized" and leaves the world as it was, so no instance is
    created: [getProvider], [getAccounts], [getChainId], [connect], and the
    instance access [getTorus] that [switchChain] makes; [switchChain]
    itself, for a chain of the list, reports that very error as the cause
    inside its [SwitchChainError], and [__torus] is still undefined
    afterwards. *)
Theorem uninitialized_instance_error (w : World) :
  __torus w = None ->
  getProvider w = (Throw uninitialized, w) /\
  getAccounts w = (Throw uninitialized, w) /\
  getChainId w = (Throw uninitialized, w) /\
  (forall params, connect params w = (Throw uninitialized, w)) /\
  getTorus w = (Throw uninitialized, w) /\
  (forall c chain,
      find (fun x => strict_eq (chain_id x) c) chains = Some chain ->
      exists w',
        switchChain c w = (Throw (SwitchChainError uninitialized), w') /\
        __torus w' = None /\ env w' = env w).
Proof.
  intros H.
  pose proof (getProvider_uninitialized w H) as HP.
  repeat split.
  - exact HP.
  - now apply getAccounts_uninitialized.
  - unfold getChainId. now rewrite (bind_Throw _ _ _ _ _ HP).
  - intros params. unfold connect. now rewrite (bind_Throw _ _ _ _ _ HP).
  - now apply getTorus_uninitialized.
  - intros c chain Hfind. unfold switchChain. rewrite Hfind.
    eexists. split.
    + erewrite try_catch_Throw.
      * reflexivity.
      * destruct (isAuthorized_async_uninitialized w H) as (p & Hp & Hrest).
        rewrite (bind_Return _ _ _ _ _ Hp). unfold meanwhile.
        rewrite (bind_Return _ _ w tt w eq_refl).
        rewrite (bind_Throw _ _ _ _ _ (getTorus_uninitialized w H)).
        now rewrite Hrest.
    + cbn. now split.
Qed.

(** *** Disconnecting *)

(** C9: [disconnect] never assigns the closure variables.  Whatever the
    SDK's [logout] does or answers, [__torus] and [network] hold the same
    values after the call as before; an existing instance is logged out
    and kept, and the next [getTorus] hands out the same instance. *)
Theorem disconnect_keeps_instance_and_network (w : World) :
  __torus (snd (disconnect w)) = __torus w /\
  network (snd (disconnect w)) = network w /\
  (forall t, __torus w = Some t ->
             disconnect w = call (logout t) w /\
             env (snd (disconnect w)) = snd (logout t (env w)) /\
             getTorus (snd (disconnect w)) = (Return t, snd (disconnect w))) /\
  (__torus w = None -> disconnect w = (Return tt, w)).
Proof.
  unfold disconnect.
  destruct (__torus w) as [t |] eqn:E.
  - destruct (keeps_call (logout t) w) as [H1 H2].
    split; [congruence |]. split; [exact H2 |]. split; [| discriminate].
    intros t' Ht'. injection Ht' as <-.
    split; [reflexivity |]. split.
    + unfold call. now destruct (logout t (env w)).
    + apply getTorus_initialized. congruence.
  - split; [exact E |]. split; [reflexivity |].
    split; [discriminate | reflexivity].
Qed.

(** *** Event relays *)

(** C10: for every string [s], [onChainChanged s] returns normally and
    appends exactly one event to the emitter's trace, the change event
    carrying [Number s]; whether that id is supported only shows in the
    log entry.  Nothing else of the world changes, so no disconnect event
    is emitted and no error is thrown, whatever [isChainUnsupported
    (Number s)] is. *)
Theorem onChainChanged_emits_change (s : string) (w : World) :
  fst (onChainChanged s w) = Return tt /\
  emitted (snd (onChainChanged s w)) =
    emitted w ++ [EmitChangeChainId (Number s)] /\
  logged (snd (onChainChanged s w)) =
    logged w ++ [(LogInfo, [LogString "chainChanged"; LogNumber (Number s);
                            LogBool (isChainUnsupported (Number s))])] /\
  __torus (snd (onChainChanged s w)) = __torus w /\
  network (snd (onChainChanged s w)) = network w /\
  env (snd (onChainChanged s w)) = env w.
Proof. repeat split. Qed.

(** When [getAddress] throws on the first entry, the error leaves
    [onAccountsChanged] and nothing is emitted. *)
Lemma onAccountsChanged_invalid_address a0 rest w :
  truthy_string a0 = true -> getAddress a0 = None ->
  onAccountsChanged (a0 :: rest) w = (Throw (InvalidAddressError a0), w).
Proof. intros Ht Hc. cbn. now rewrite Ht, Hc. Qed.

(** C8: [onAccountsChanged] emits exactly one event.  For the empty list
    and for a list whose first entry is the empty string it is the
    disconnect event.  Otherwise, with [c] the checksum form that
    [getAddress] gives for the first entry, it is the change event whose
    accounts are [[c]]: the other entries of the list play no part. *)
Theorem onAccountsChanged_emits (a : list string) (w : World) :
  ((a = [] \/ exists a0 rest, a = a0 :: rest /\ truthy_string a0 = false) ->
   fst (onAccountsChanged a w) = Return tt /\
   emitted (snd (onAccountsChanged a w)) = emitted w ++ [EmitDisconnect]) /\
  (forall a0 rest c,
      a = a0 :: rest -> truthy_string a0 = true -> getAddress a0 = Some c ->
      fst (onAccountsChanged a w) = Return tt /\
      emitted (snd (onAccountsChanged a w)) =
        emitted w ++ [EmitChangeAccounts [c]]).
Proof.
  split.
  - intros [-> | (a0 & rest & -> & Hf)]; cbn.
    + now split.
    + rewrite Hf. now split.
  - intros a0 rest c -> Ht Hc. cbn. rewrite Ht, Hc. now split.
Qed.

(** *** Accounts *)

Lemma nonempty_entries_In raw a :
  In a (nonempty_entries raw) <-> In (Some a) raw /\ a <> "".
Proof.
  induction raw as [| [b |] rest IH]; cbn.
  - tauto.
  - destruct (truthy_string b) eqn:Hb; cbn; rewrite IH.
    + split.
      * intros [-> | [H1 H2]]; [| tauto].
        split; [now left |]. intros ->. discriminate.
      * intros [[H | H] Hne]; [left; congruence | tauto].
    + split; [tauto |].
      intros [[H | H] Hne]; [| tauto].
      injection H as ->. destruct a; [congruence | discriminate].
  - rewrite IH. split; [tauto |]. intros [[H | H] Hne]; [discriminate | tauto].
Qed.

(** The reduction returns a list exactly when every kept entry has a
    checksum form, and then it has pushed these forms, in order, behind
    the accumulator. *)
Lemma reduce_accounts_spec raw :
  forall acc cs,
    reduce_accounts raw acc = Return cs <->
    exists tl, cs = acc ++ tl /\ Forall2 checksum_of (nonempty_entries raw) tl.
Proof.
  induction raw as [| [a |] rest IH]; intros acc cs; cbn.
  - split.
    + intros [= <-]. exists []. split; [now rewrite app_nil_r | constructor].
    + intros (tl & -> & Hall). inversion Hall. now rewrite app_nil_r.
  - destruct (truthy_string a); [| apply IH].
    destruct (getAddress a) as [c |] eqn:Hc.
    + rewrite IH. split.
      * intros (tl & -> & Hall). exists (c :: tl). split.
        -- now rewrite <- app_assoc.
        -- now constructor.
      * intros (tl & -> & Hall). inversion Hall as [| x y l l' Hxy Hl]; subst.
        unfold checksum_of in Hxy. rewrite Hc in Hxy. injection Hxy as <-.
        exists l'. split; [now rewrite <- app_assoc | assumption].
    + split; [discriminate |].
      intros (tl & _ & Hall). inversion Hall as [| x y l l' Hxy Hl]; subst.
      unfold checksum_of in Hxy. congruence.
  - apply IH.
Qed.

(** When [getAddress] throws on a kept entry, the reduction stops with
    that error. *)
Lemma reduce_accounts_invalid_address raw :
  forall acc,
    (exists a, In a (nonempty_entries raw) /\ getAddress a = None) ->
    exists a, In a (nonempty_entries raw) /\
              reduce_accounts raw acc = Throw (InvalidAddressError a).
Proof.
  induction raw as [| [b |] rest IH]; intros acc (a & Hin & Hnone); cbn in *.
  - contradiction.
  - destruct (truthy_string b) eqn:Hb.
    + destruct (getAddress b) as [c |] eqn:Hc.
      * destruct Hin as [-> | Hin]; [congruence |].
        destruct (IH (acc ++ [c])) as (a' & Hin' & Hr); [eauto |].
        exists a'. split; [now right | assumption].
      * exists b. split; [now left | reflexivity].
    + apply IH. eauto.
  - apply IH. eauto.
Qed.

Lemma getAccounts_run w w1 p raw e' :
  getProvider w = (Return (Some p), w1) ->
  request_eth_accounts p (env w1) = (Resolve raw, e') ->
  getAccounts w =
    (match raw with
     | None => Return []
     | Some l => if Nat.eqb (length l) 0 then Return [] else reduce_accounts l []
     end,
     snd (call (request_eth_accounts p) w1)).
Proof.
  intros HP HR. unfold getAccounts.
  rewrite (bind_Return _ _ _ _ _ HP). cbn.
  unfold bind, call. rewrite HR. cbn [completion_of_reply].
  destruct raw as [l |]; [| reflexivity].
  now destruct (Nat.eqb (length l) 0).
Qed.

(** C4: let the provider be obtained and let its [eth_accounts] request
    answer [raw].  Then [getAccounts] returns a list [cs] exactly when [cs]
    consists of the checksum forms of the entries of [raw] that are
    neither null nor empty, in their order.  So every returned entry is
    the checksum form of a non-empty entry of [raw]; for [[a; ""; null]]
    the result is the checksum form of [a] alone; for a null or an empty
    answer it is the empty list. *)
Theorem getAccounts_checksummed_nonempty
    (w w1 : World) (p : Provider) (raw : option (list (option string)))
    (e' : Env) :
  getProvider w = (Return (Some p), w1) ->
  request_eth_accounts p (env w1) = (Resolve raw, e') ->
  let entries := match raw with Some l => l | None => [] end in
  (forall cs,
      fst (getAccounts w) = Return cs <->
      Forall2 checksum_of (nonempty_entries entries) cs) /\
  (forall cs,
      fst (getAccounts w) = Return cs ->
      forall c, In c cs ->
      exists a, In (Some a) entries /\ a <> "" /\ checksum_of a c) /\
  (forall a c,
      raw = Some [Some a; Some ""; None] ->
      truthy_string a = true -> checksum_of a c ->
      fst (getAccounts w) = Return [c]) /\
  (raw = None \/ raw = Some [] -> fst (getAccounts w) = Return []).
Proof.
  intros HP HR entries.
  assert (Hiff : forall cs,
             fst (getAccounts w) = Return cs <->
             Forall2 checksum_of (nonempty_entries entries) cs).
  { intros cs. rewrite (getAccounts_run _ _ _ _ _ HP HR). cbn [fst].
    subst entries. destruct raw as [[| x l] |]; cbn [length Nat.eqb].
    - cbn. split; [intros [= <-]; constructor | intros H; now inversion H].
    - rewrite reduce_accounts_spec. split.
      + now intros (tl & -> & H).
      + intros H. now exists cs.
    - cbn. split; [intros [= <-]; constructor | intros H; now inversion H]. }
  split; [exact Hiff |]. split; [| split].
  - intros cs Hcs c Hc. apply Hiff in Hcs.
    assert (Hex : exists a, In a (nonempty_entries entries) /\ checksum_of a c).
    { clear - Hcs Hc. induction Hcs as [| a c' l l' Hac Hl IH].
      - contradiction.
      - destruct Hc as [-> | Hc].
        + exists a. split; [now left | assumption].
        + destruct (IH Hc) as (a' & Ha' & Hc'). exists a'.
          split; [now right | assumption]. }
    destruct Hex as (a & Ha & Hac). apply nonempty_entries_In in Ha.
    exists a. tauto.
  - intros a c -> Ha Hac. apply Hiff. cbn. rewrite Ha.
    constructor; [assumption | constructor].
  - intros [-> | ->]; apply Hiff; constructor.
Qed.

(** *** Authorization *)

(** C7: [isAuthorized] always returns a boolean, never an error.  The
    boolean is [true] exactly when [getProvider] handed out a provider
    and the following [getAccounts] returned a non-empty list; when
    either of them throws, the error is dropped and the result is
    [false]. *)
Theorem isAuthorized_never_throws (w : World) :
  exists b w',
    isAuthorized w = (Return b, w') /\
    (b = true <->
       exists p w1 accounts,
         getProvider w = (Return (Some p), w1) /\
         getAccounts w1 = (Return accounts, w') /\
         accounts <> []) /\
    (forall e w1, getProvider w = (Throw e, w1) -> b = false /\ w' = w1) /\
    (forall o w1 e w2,
        getProvider w = (Return o, w1) -> getAccounts w1 = (Throw e, w2) ->
        b = false /\ w' = w2).
Proof.
  unfold isAuthorized, try_catch, bind.
  destruct (getProvider w) as [[o | e] w1] eqn:HP.
  - destruct (getAccounts w1) as [[accounts | e] w2] eqn:HA.
    + eexists. eexists. split; [reflexivity |]. split; [| split].
      * split.
        -- intros H. apply andb_prop in H as [Hlen Ho].
           destruct o as [p |]; [| discriminate].
           exists p, w1, accounts.
           split; [reflexivity |]. split; [exact HA |].
           intros ->. discriminate.
        -- intros (p & w1' & accounts' & [= -> <-] & Hacc & Hne).
           rewrite HA in Hacc. injection Hacc as <-.
           destruct accounts; [contradiction | reflexivity].
      * intros e w1' [=].
      * intros o' w1' e w2' [= <- <-]. rewrite HA. intros [=].
    + exists false, w2. split; [reflexivity |]. split; [| split].
      * split; [discriminate |].
        intros (p & w1' & accounts' & [= -> <-] & Hacc & _).
        rewrite HA in Hacc. discriminate.
      * intros e' w1' [=].
      * intros o' w1' e' w2' [= <- <-]. rewrite HA. intros [= <- <-].
        now split.
  - exists false, w1. split; [reflexivity |]. split; [| split].
    + split; [discriminate |]. intros (p & w1' & accounts' & [=] & _).
    + intros e' w1' [= <- <-]. now split.
    + intros o w1' e' w2 [=].
Qed.

(** *** Switching chains *)

Lemma switchChain_catch_run e w :
  switchChain_catch e w =
    (Throw (SwitchChainError e),
     snd (log LogErr [LogString "Error: Cannot change chain"; LogError e] w)).
Proof. reflexivity. Qed.

Lemma find_chain_some c chain :
  find (fun x => strict_eq (chain_id x) c) chains = Some chain ->
  In chain chains /\ strict_eq (chain_id chain) c = true.
Proof. apply find_some. Qed.

Lemma strict_eq_true a b : strict_eq a b = true -> a = b.
Proof.
  destruct a as [| x], b as [| y]; cbn; try discriminate.
  intros H. apply Z.eqb_eq in H. now subst.
Qed.

Lemma strict_eq_self a b : strict_eq a b = true -> strict_eq a a = true.
Proof.
  destruct a as [| x], b as [| y]; cbn; try discriminate.
  intros _. apply Z.eqb_refl.
Qed.

Lemma find_chain_none_iff c :
  find (fun x => strict_eq (chain_id x) c) chains = None <->
  existsb (fun x => strict_eq (chain_id x) c) chains = false.
Proof.
  induction chains as [| x l IH]; cbn.
  - tauto.
  - destruct (strict_eq (chain_id x) c); cbn; [| exact IH].
    split; discriminate.
Qed.

Lemma keeps_getProvider_async : keeps_closure getProvider_async.
Proof.
  unfold getProvider_async, suspend, resolved, get_network.
  apply keeps_async. pose proof keeps_getProvider_tail. closure.
Qed.

Lemma keeps_isAuthorized_async : keeps_closure isAuthorized_async.
Proof.
  unfold isAuthorized_async, suspend.
  apply keeps_async. pose proof keeps_getProvider_async. closure.
Qed.

Lemma isAuthorized_async_returns w :
  isAuthorized_async w
    = (Return (floating_isAuthorized w), snd (isAuthorized_async w)).
Proof.
  unfold floating_isAuthorized, isAuthorized_async, async.
  now destruct (bind getProvider_async _ w) as [[p | e] w1].
Qed.

(** The SDK as the un-awaited [isAuthorized()] leaves it for the
    [setProvider] call of [switchChain]: with an SDK that is not
    initialised, [init] has been called and has not settled; with an
    initialised one, [getProvider] has run to its end. *)
Lemma isAuthorized_async_env w t :
  __torus w = Some t ->
  env (snd (isAuthorized_async w))
    = if isInitialized t (env w)
      then env (snd (getProvider_tail t w))
      else init_begin t {| init_params := TorusParams_opt options;
                           init_network := network w |} (env w).
Proof.
  intros Ht.
  destruct (after_getProvider_async_run
              (fun pending =>
                 try_catch
                   (bind (await pending) (fun provider =>
                    bind getAccounts (fun accounts =>
                    ret (Nat.ltb 0 (length accounts)
                         && match provider with
                            | Some _ => true
                            | None => false
                            end))))
                   (fun _ => ret false)) w)
    as (pending & _ & Heq).
  unfold isAuthorized_async. rewrite Heq. cbn [snd].
  rewrite getProvider_async_run, Ht.
  now destruct (isInitialized t (env w)).
Qed.

(** What [switchChain] does, case by case: [w1] is the world when the
    un-awaited [isAuthorized()] has stopped at its first [await], [w2]
    the world when [setProvider] has answered, [w3] the world when the
    rest of [isAuthorized()] has run. *)
Lemma switchChain_run c w :
  switchChain c w =
    match find (fun x => strict_eq (chain_id x) c) chains with
    | None => switchChain_catch (SwitchChainError chain_not_found) w
    | Some chain =>
        let w1 := snd (isAuthorized_async w) in
        let rest := await (floating_isAuthorized w) in
        match __torus w with
        | None => switchChain_catch uninitialized (snd (rest w1))
        | Some t =>
            let w2 := snd (call (setProvider t (setProvider_args chain c)) w1) in
            let w3 := snd (rest w2) in
            match fst (setProvider t (setProvider_args chain c) (env w1)) with
            | Resolve _ => (Return chain, w3)
            | Reject reason => switchChain_catch (SdkError reason) w3
            end
        end
    end.
Proof.
  unfold switchChain.
  destruct (find (fun x => strict_eq (chain_id x) c) chains) as [chain |];
    [| reflexivity].
  destruct (keeps_isAuthorized_async w) as [Ht _].
  unfold try_catch.
  rewrite (bind_Return _ _ _ _ _ (isAuthorized_async_returns w)).
  cbv zeta. unfold meanwhile.
  set (w1 := snd (isAuthorized_async w)) in *.
  set (rest := await (floating_isAuthorized w)).
  rewrite (bind_Return _ _ w1 tt w1 eq_refl).
  destruct (__torus w) as [t |] eqn:E.
  - rewrite (bind_Return _ _ _ _ _ (getTorus_initialized w1 t Ht)).
    unfold bind, call.
    destruct (setProvider t (setProvider_args chain c) (env w1))
      as [[[] | reason] e']; cbn [completion_of_reply fst snd ret];
      now destruct (rest _).
  - rewrite (bind_Throw _ _ _ _ _ (getTorus_uninitialized w1 Ht)).
    now destruct (rest w1).
Qed.

Lemma setProvider_succeeds_spec c w :
  setProvider_succeeds c w = true <->
  exists chain t e',
    find (fun x => strict_eq (chain_id x) c) chains = Some chain /\
    __torus w = Some t /\
    setProvider t (setProvider_args chain c) (env (snd (isAuthorized_async w)))
      = (Resolve tt, e').
Proof.
  unfold setProvider_succeeds.
  destruct (find (fun x => strict_eq (chain_id x) c) chains) as [chain |].
  - destruct (__torus w) as [t |].
    + destruct (setProvider t (setProvider_args chain c)
                  (env (snd (isAuthorized_async w)))) as [[[] | reason] e'] eqn:Hs;
        cbn [fst].
      * split; [intros _; now exists chain, t, e' | reflexivity].
      * split; [discriminate |].
        intros (chain' & t' & e'' & [= <-] & [= <-] & H).
        rewrite Hs in H. discriminate.
    + split; [discriminate | intros (? & ? & ? & _ & [=] & _)].
  - split; [discriminate | intros (? & ? & ? & [=] & _)].
Qed.

(** C1: [switchChain c] returns a chain exactly when the chain list has a
    chain with id [c] and the [setProvider] call it makes succeeds; the
    chain returned is then the first chain of the list with that id.  In
    every other case it throws a [SwitchChainError], and it never throws
    anything else. *)
Theorem switchChain_succeeds_iff (c : number) (w : World) :
  ((exists chain w', switchChain c w = (Return chain, w')) <->
   existsb (fun x => strict_eq (chain_id x) c) chains = true /\
   setProvider_succeeds c w = true) /\
  (forall chain w',
      switchChain c w = (Return chain, w') ->
      find (fun x => strict_eq (chain_id x) c) chains = Some chain /\
      In chain chains /\ strict_eq (chain_id chain) c = true) /\
  ((exists chain w', switchChain c w = (Return chain, w')) \/
   (exists cause w', switchChain c w = (Throw (SwitchChainError cause), w'))) /\
  (forall e w',
      switchChain c w = (Throw e, w') -> exists cause, e = SwitchChainError cause).
Proof.
  rewrite (switchChain_run c w). unfold setProvider_succeeds.
  pose proof (find_chain_none_iff c) as Hnone.
  destruct (find (fun x => strict_eq (chain_id x) c) chains) as [chain |] eqn:Hf.
  - assert (Hex : existsb (fun x => strict_eq (chain_id x) c) chains = true).
    { destruct (existsb _ chains); [reflexivity |].
      now destruct Hnone as [_ H]; specialize (H eq_refl). }
    cbv zeta. destruct (__torus w) as [t |].
    + destruct (fst (setProvider t (setProvider_args chain c)
                       (env (snd (isAuthorized_async w))))) as [[] | e].
      * split; [| split; [| split]].
        -- split; [now intros _ | intros _; eauto].
        -- intros chain' w' [= <- <-]. split; [reflexivity |].
           now apply find_chain_some.
        -- left. eauto.
        -- intros e w' [=].
      * rewrite switchChain_catch_run. split; [| split; [| split]].
        -- split; [intros (? & ? & [=]) | intros [_ [=]]].
        -- intros chain' w' [=].
        -- right. eauto.
        -- intros e' w' [= <- <-]. eauto.
    + rewrite switchChain_catch_run. split; [| split; [| split]].
      * split; [intros (? & ? & [=]) | intros [_ [=]]].
      * intros chain' w' [=].
      * right. eauto.
      * intros e' w' [= <- <-]. eauto.
  - rewrite switchChain_catch_run. split; [| split; [| split]].
    + split; [intros (? & ? & [=]) | intros [_ [=]]].
    + intros chain' w' [=].
    + right. eauto.
    + intros e' w' [= <- <-]. eauto.
Qed.

(** C2: the guard of [switchChain] looks at the promise that
    [isAuthorized()] returns, not at what it resolves to.  A promise is
    truthy, so the negated test is false for every promise; no run of
    [switchChain] throws or wraps the "Please login first" error; and
    for a chain of the list, with [p] the promise of the un-awaited call
    and [w1] the world in which that call has stopped at its first
    [await], [switchChain] goes on from [w1] to the instance access and
    the [setProvider] call while [p] is pending, and what [switchChain]
    returns or throws is what these two steps give from [w1]: nothing of
    it depends on what [p] settles to. *)
Theorem switchChain_login_guard_unreachable (c : number) (w : World) :
  (forall p : Promise bool, negb (truthy_promise p) = false) /\
  (forall e w',
      switchChain c w = (Throw e, w') ->
      e <> Error "Please login first" /\
      e <> SwitchChainError (Error "Please login first")) /\
  (forall chain p w1,
      find (fun x => strict_eq (chain_id x) c) chains = Some chain ->
      isAuthorized_async w = (Return p, w1) ->
      switchChain c w =
        try_catch
          (meanwhile p
             (bind getTorus (fun t =>
              bind (call (setProvider t (setProvider_args chain c))) (fun _ =>
              ret chain))))
          switchChain_catch w1 /\
      fst (switchChain c w) =
        fst (try_catch
               (bind getTorus (fun t =>
                bind (call (setProvider t (setProvider_args chain c))) (fun _ =>
                ret chain)))
               switchChain_catch w1)).
Proof.
  split; [reflexivity |]. split.
  - rewrite (switchChain_run c w).
    destruct (find (fun x => strict_eq (chain_id x) c) chains) as [chain |].
    + cbv zeta. destruct (__torus w) as [t |].
      * destruct (fst (setProvider t (setProvider_args chain c)
                         (env (snd (isAuthorized_async w))))) as [[] | e0].
        -- intros e w' [=].
        -- rewrite switchChain_catch_run. intros e w' [= <- <-].
           split; discriminate.
      * rewrite switchChain_catch_run. intros e w' [= <- <-].
        split; discriminate.
    + rewrite switchChain_catch_run. intros e w' [= <- <-].
      split; discriminate.
  - intros chain p w1 Hf HA.
    assert (Heq : switchChain c w =
                  try_catch
                    (meanwhile p
                       (bind getTorus (fun t =>
                        bind (call (setProvider t (setProvider_args chain c)))
                          (fun _ => ret chain))))
                    switchChain_catch w1).
    { unfold switchChain. rewrite Hf. unfold try_catch.
      rewrite (bind_Return _ _ _ _ _ HA). unfold meanwhile.
      now rewrite (bind_Return _ _ w1 tt w1 eq_refl). }
    split; [exact Heq |]. rewrite Heq.
    unfold try_catch, meanwhile.
    destruct (bind getTorus _ w1) as [[chain' | e] w2];
      now destruct (await p w2).
Qed.

Lemma switchChain_Return c w chain w' :
  switchChain c w = (Return chain, w') ->
  find (fun x => strict_eq (chain_id x) c) chains = Some chain.
Proof.
  rewrite (switchChain_run c w).
  destruct (find (fun x => strict_eq (chain_id x) c) chains) as [chain0 |].
  - cbv zeta. destruct (__torus w) as [t |].
    + destruct (fst (setProvider t (setProvider_args chain0 c)
                       (env (snd (isAuthorized_async w))))) as [[] | reason].
      * now intros [= <- <-].
      * rewrite switchChain_catch_run. discriminate.
    + rewrite switchChain_catch_run. discriminate.
  - rewrite switchChain_catch_run. discriminate.
Qed.

Lemma switchChain_Throw c w e w' :
  switchChain c w = (Throw e, w') -> exists cause, e = SwitchChainError cause.
Proof.
  rewrite (switchChain_run c w).
  destruct (find (fun x => strict_eq (chain_id x) c) chains) as [chain0 |].
  - cbv zeta. destruct (__torus w) as [t |].
    + destruct (fst (setProvider t (setProvider_args chain0 c)
                       (env (snd (isAuthorized_async w))))) as [[] | reason].
      * discriminate.
      * rewrite switchChain_catch_run. intros [= <- <-]. eauto.
    + rewrite switchChain_catch_run. intros [= <- <-]. eauto.
  - rewrite switchChain_catch_run. intros [= <- <-]. eauto.
Qed.

Lemma found_chain_supported c chain :
  find (fun x => strict_eq (chain_id x) c) chains = Some chain ->
  isChainUnsupported (chain_id chain) = false.
Proof.
  intros H. apply find_chain_some in H as [Hin Heq].
  unfold isChainUnsupported. apply negb_false_iff, existsb_exists.
  exists chain. split; [assumption |]. now apply strict_eq_self with c.
Qed.

(** *** Connecting *)

Lemma connect_split params w :
  connect params w = bind connect_lookups (connect_resolve params) w.
Proof.
  unfold connect, connect_lookups.
  repeat (rewrite bind_bind; apply bind_ext; intros).
  reflexivity.
Qed.

(** When no switch is attempted, the second half of [connect] only
    checks the connected chain id. *)
Lemma connect_resolve_no_switch params accounts cid w1 :
  params = None \/
  (exists c, params = Some c /\
             (truthy_number c = false \/ strict_neq cid c = false)) ->
  connect_resolve params (accounts, cid) w1 =
    if isChainUnsupported cid
    then (Throw (SwitchChainError chain_not_found), w1)
    else (Return (accounts, cid), w1).
Proof.
  intros H. unfold connect_resolve. cbn [fst snd].
  assert (Hret : (match params with
            | Some chainId =>
                if truthy_number chainId && strict_neq cid chainId
                   && switchChain_is_function
                then bind (switchChain chainId) (fun chain =>
                     ret (chain_id chain, isChainUnsupported (chain_id chain)))
                else ret (cid, isChainUnsupported cid)
            | None => ret (cid, isChainUnsupported cid)
            end) w1 = (Return (cid, isChainUnsupported cid), w1)).
  { destruct H as [-> | (c & -> & [Hc | Hc])]; [reflexivity | |]; rewrite Hc.
    - reflexivity.
    - now rewrite andb_false_r. }
  rewrite (bind_Return _ _ _ _ _ Hret). cbn [fst snd].
  now destruct (isChainUnsupported cid).
Qed.

(** When a switch is attempted, its outcome is the outcome of [connect]. *)
Lemma connect_resolve_switch c accounts cid w1 :
  truthy_number c = true -> strict_neq cid c = true ->
  connect_resolve (Some c) (accounts, cid) w1 =
    match switchChain c w1 with
    | (Return chain, w2) => (Return (accounts, chain_id chain), w2)
    | (Throw e, w2) => (Throw e, w2)
    end.
Proof.
  intros Hc Hne. unfold connect_resolve. cbn [fst snd].
  rewrite Hc, Hne. cbn [andb switchChain_is_function].
  unfold bind. destruct (switchChain c w1) as [[chain | e] w2] eqn:Hs.
  - cbn [ret fst snd].
    now rewrite (found_chain_supported c chain (switchChain_Return _ _ _ _ Hs)).
  - reflexivity.
Qed.

(** C5: let the first half of [connect] succeed, with the accounts
    retrieved and the connected chain id [cid].  If no switch is attempted
    and [cid] is not in the chain list, or if a switch to [c] is attempted
    and [c] is not in the chain list, then [connect] throws a
    [SwitchChainError].  And no run of [connect] at all returns a chain id
    that is not in the chain list. *)
Theorem connect_unsupported_chain_fails (params : option number) (w : World) :
  (forall accounts cid w1,
      connect_lookups w = (Return (accounts, cid), w1) ->
      params = None \/
      (exists c, params = Some c /\
                 (truthy_number c = false \/ strict_neq cid c = false)) ->
      isChainUnsupported cid = true ->
      connect params w = (Throw (SwitchChainError chain_not_found), w1)) /\
  (forall accounts cid w1 c,
      connect_lookups w = (Return (accounts, cid), w1) ->
      params = Some c -> truthy_number c = true -> strict_neq cid c = true ->
      isChainUnsupported c = true ->
      exists w',
        connect params w =
          (Throw (SwitchChainError (SwitchChainError chain_not_found)), w')) /\
  (forall accounts id w',
      connect params w = (Return (accounts, id), w') ->
      isChainUnsupported id = false).
Proof.
  split; [| split].
  - intros accounts cid w1 HL Hno Hun.
    rewrite connect_split, (bind_Return _ _ _ _ _ HL).
    rewrite (connect_resolve_no_switch _ _ _ _ Hno). now rewrite Hun.
  - intros accounts cid w1 c HL -> Hc Hne Hun.
    rewrite connect_split, (bind_Return _ _ _ _ _ HL).
    rewrite (connect_resolve_switch _ _ _ _ Hc Hne).
    rewrite (switchChain_run c w1).
    unfold isChainUnsupported in Hun. apply negb_true_iff in Hun.
    apply find_chain_none_iff in Hun. rewrite Hun.
    rewrite switchChain_catch_run. eauto.
  - intros accounts id w'. rewrite connect_split. unfold bind at 1.
    destruct (connect_lookups w) as [[[accs cid] | e] w1]; [| discriminate].
    destruct params as [c |].
    + destruct (truthy_number c) eqn:Hc.
      * destruct (strict_neq cid c) eqn:Hne.
        -- rewrite (connect_resolve_switch _ _ _ _ Hc Hne).
           destruct (switchChain c w1) as [[chain | e] w2] eqn:Hs;
             [| discriminate].
           intros [= <- <- <-].
           exact (found_chain_supported c chain (switchChain_Return _ _ _ _ Hs)).
        -- rewrite connect_resolve_no_switch by (right; eauto).
           destruct (isChainUnsupported cid) eqn:Hun; [discriminate |].
           now intros [= <- <- <-].
      * rewrite connect_resolve_no_switch by (right; eauto).
        destruct (isChainUnsupported cid) eqn:Hun; [discriminate |].
        now intros [= <- <- <-].
    + rewrite connect_resolve_no_switch by now left.
      destruct (isChainUnsupported cid) eqn:Hun; [discriminate |].
      now intros [= <- <- <-].
Qed.

(** C6, as the code has it: let the first half of [connect] succeed with
    connected chain id [cid], and let the caller ask for a truthy chain
    id [c] with [cid !== c].  Then [connect] runs [switchChain c], and what
    that does decides the outcome.  If the switch returns a chain, [connect]
    returns the accounts with that chain's id, which is [c].  If the switch
    throws, [connect] throws the same error, a [SwitchChainError], and
    reports no chain id. *)
Theorem connect_switch_outcome
    (c : number) (w : World) (accounts : list Address) (cid : number)
    (w1 : World) :
  connect_lookups w = (Return (accounts, cid), w1) ->
  truthy_number c = true ->
  strict_neq cid c = true ->
  connect (Some c) w =
    match switchChain c w1 with
    | (Return chain, w2) => (Return (accounts, chain_id chain), w2)
    | (Throw e, w2) => (Throw e, w2)
    end /\
  (forall chain w2,
      switchChain c w1 = (Return chain, w2) ->
      connect (Some c) w = (Return (accounts, c), w2)) /\
  (forall e w2,
      switchChain c w1 = (Throw e, w2) ->
      connect (Some c) w = (Throw e, w2) /\
      exists cause, e = SwitchChainError cause).
Proof.
  intros HL Hc Hne.
  assert (Hrun : connect (Some c) w =
                 match switchChain c w1 with
                 | (Return chain, w2) => (Return (accounts, chain_id chain), w2)
                 | (Throw e, w2) => (Throw e, w2)
                 end).
  { rewrite connect_split, (bind_Return _ _ _ _ _ HL).
    now apply connect_resolve_switch. }
  split; [exact Hrun |]. split.
  - intros chain w2 Hs. rewrite Hrun, Hs.
    apply switchChain_Return, find_chain_some in Hs as [_ Heq].
    now rewrite (strict_eq_true _ _ Heq).
  - intros e w2 Hs. split; [now rewrite Hrun, Hs |].
    now apply switchChain_Throw in Hs.
Qed.

(** *** What a call leaves alone *)

Lemma leaves_bind {A B C : Type} (f : World -> C) (m : M A) (k : A -> M B) :
  leaves f m -> (forall a, leaves f (k a)) -> leaves f (bind m k).
Proof.
  intros Hm Hk w. unfold bind. specialize (Hm w).
  destruct (m w) as [[a | e] w1]; cbn [snd] in *.
  - now rewrite (Hk a w1).
  - exact Hm.
Qed.

(** The same, when what [k] leaves alone depends on the value, here the
    promise, that [m] has returned. *)
Lemma leaves_bind_val {A B C : Type} (f : World -> C) (m : M A)
    (k : A -> M B) :
  leaves f m ->
  (forall w a w', m w = (Return a, w') -> leaves f (k a)) ->
  leaves f (bind m k).
Proof.
  intros Hm Hk w. unfold bind. specialize (Hm w).
  destruct (m w) as [[a | e] w1] eqn:E; cbn [snd] in *.
  - now rewrite (Hk w a w1 E w1).
  - exact Hm.
Qed.

Lemma leaves_try_catch {A C : Type} (f : World -> C) (m : M A) h :
  leaves f m -> (forall e, leaves f (h e)) -> leaves f (try_catch m h).
Proof.
  intros Hm Hh w. unfold try_catch. specialize (Hm w).
  destruct (m w) as [[a | e] w1]; cbn [snd] in *.
  - exact Hm.
  - now rewrite (Hh e w1).
Qed.

Lemma leaves_async {A C : Type} (f : World -> C) (body : M (Promise A)) :
  leaves f body -> leaves f (async body).
Proof.
  intros Hb w. unfold async. specialize (Hb w).
  now destruct (body w) as [[p | e] w1].
Qed.

Lemma leaves_meanwhile {A B C : Type} (f : World -> C) (p : Promise B)
    (m : M A) :
  leaves f (await p) -> leaves f m -> leaves f (meanwhile p m).
Proof.
  intros Hp Hm w. unfold meanwhile. specialize (Hm w).
  destruct (m w) as [c w1]. specialize (Hp w1).
  destruct (await p w1) as [c' w2]. cbn [snd] in *. congruence.
Qed.

Lemma leaves_Promise_all {A B C : Type} (f : World -> C) (p1 : Promise A)
    (p2 : Promise B) :
  leaves f (await p1) -> leaves f (await p2) ->
  leaves f (await (Promise_all p1 p2)).
Proof.
  intros H1 H2 w. unfold Promise_all. cbn [await].
  specialize (H1 w). destruct (await p1 w) as [c1 w1].
  specialize (H2 w1). destruct (await p2 w1) as [c2 w2].
  cbn [snd] in *. congruence.
Qed.

Lemma leaves_ext {A C : Type} (f : World -> C) (m m' : M A) :
  (forall w, m w = m' w) -> leaves f m' -> leaves f m.
Proof. intros H Hm w. rewrite H. apply Hm. Qed.

Lemma leaves_getTorus {C : Type} (f : World -> C) : leaves f getTorus.
Proof. intros w. unfold getTorus. now destruct (__torus w). Qed.

Lemma leaves_deref {C : Type} (f : World -> C) p : leaves f (deref p).
Proof. now destruct p. Qed.

Lemma keeps_leaves {A : Type} (m : M A) :
  keeps_closure m <-> leaves __torus m /\ leaves network m.
Proof.
  split.
  - intros H. split; intros w; apply H.
  - intros [H1 H2] w. split; [apply H1 | apply H2].
Qed.

Ltac frame :=
  repeat first
    [ assumption
    | match goal with
      | H : forall (A : Type) (op : Env -> reply A * Env), leaves _ (call op)
        |- leaves _ (call _) => apply H
      | H : forall g : Env -> Env, leaves _ (begin g)
        |- leaves _ (begin _) => apply H
      | H : forall lvl args, leaves _ (log lvl args)
        |- leaves _ (log _ _) => apply H
      | H : forall c : number, leaves _ (switchChain c)
        |- leaves _ (switchChain _) => apply H
      | H : forall t : Torus, leaves _ (getProvider_tail t)
        |- leaves _ (getProvider_tail _) => apply H
      end
    | apply leaves_bind; [| intros ?]
    | apply leaves_try_catch; [| intros ?]
    | apply leaves_async
    | apply leaves_getTorus
    | apply leaves_deref
    | match goal with |- leaves _ (if ?b then _ else _) => destruct b end
    | match goal with |- leaves _ (match ?x with _ => _ end) => destruct x end
    | (intros ?; reflexivity) ].

Section Frame.

(** [f] is a component of the world that no SDK call changes. *)
Variable C : Type.
Variable f : World -> C.
Hypothesis f_call :
  forall (A : Type) (op : Env -> reply A * Env), leaves f (call op).
Hypothesis f_begin : forall g : Env -> Env, leaves f (begin g).

Lemma frame_getProvider_tail t : leaves f (getProvider_tail t).
Proof. unfold getProvider_tail. frame. Qed.

Lemma frame_getProvider : leaves f getProvider.
Proof. unfold getProvider, get_network. frame. Qed.

Lemma frame_getProvider_async : leaves f getProvider_async.
Proof.
  pose proof frame_getProvider_tail.
  unfold getProvider_async, suspend, resolved, get_network. frame.
Qed.

Lemma frame_getProvider_pending w p w' :
  getProvider_async w = (Return p, w') -> leaves f (await p).
Proof.
  pose proof frame_getProvider_tail.
  rewrite getProvider_async_run.
  destruct (__torus w) as [t |].
  - destruct (isInitialized t (env w)); intros [= <- _]; cbn [await];
      [intros w0; reflexivity | frame].
  - intros [= <- _]. intros w0. reflexivity.
Qed.

(** A method that starts with [await this.getProvider()]: its call, and
    the rest that its promise holds. *)
Lemma frame_after_getProvider {A : Type}
    (rest : Promise (option Provider) -> M A) :
  (forall pending, leaves f (await pending) -> leaves f (rest pending)) ->
  leaves f (async (bind getProvider_async
                     (fun pending => suspend (rest pending)))) /\
  (forall w p w',
      async (bind getProvider_async (fun pending => suspend (rest pending))) w
        = (Return p, w') ->
      leaves f (await p)).
Proof.
  intros Hrest. split.
  - pose proof frame_getProvider_async. unfold suspend. frame.
  - intros w p w' H.
    destruct (after_getProvider_async_run rest w) as (pending & Hp & Heq).
    rewrite Heq in H. injection H as <- _. cbn [await].
    apply Hrest. exact (frame_getProvider_pending _ _ _ Hp).
Qed.

Lemma frame_getAccounts_resume provider : leaves f (getAccounts_resume provider).
Proof. unfold getAccounts_resume. frame. Qed.

Lemma frame_getAccounts : leaves f getAccounts.
Proof. pose proof frame_getProvider. unfold getAccounts. frame. Qed.

Lemma frame_isAuthorized : leaves f isAuthorized.
Proof.
  pose proof frame_getProvider. pose proof frame_getAccounts.
  unfold isAuthorized. frame.
Qed.

Lemma frame_getAccounts_async :
  leaves f getAccounts_async /\
  (forall w p w', getAccounts_async w = (Return p, w') -> leaves f (await p)).
Proof.
  apply frame_after_getProvider. intros pending Hp.
  pose proof frame_getAccounts_resume. frame.
Qed.

Lemma frame_isAuthorized_async :
  leaves f isAuthorized_async /\
  (forall w, leaves f (await (floating_isAuthorized w))).
Proof.
  assert (H : leaves f isAuthorized_async /\
              (forall w p w',
                  isAuthorized_async w = (Return p, w') -> leaves f (await p))).
  { apply frame_after_getProvider. intros pending Hp.
    pose proof frame_getAccounts. frame. }
  destruct H as [H1 H2]. split; [exact H1 |].
  intros w. exact (H2 _ _ _ (isAuthorized_async_returns w)).
Qed.

(** [f] is, moreover, not the log. *)
Hypothesis f_log : forall lvl args, leaves f (log lvl args).

Lemma frame_getChainId_resume provider : leaves f (getChainId_resume provider).
Proof. unfold getChainId_resume. frame. Qed.

Lemma frame_getChainId : leaves f getChainId.
Proof. pose proof frame_getProvider. unfold getChainId. frame. Qed.

Lemma frame_getChainId_async :
  leaves f getChainId_async /\
  (forall w p w', getChainId_async w = (Return p, w') -> leaves f (await p)).
Proof.
  apply frame_after_getProvider. intros pending Hp.
  frame.
Qed.

Lemma frame_lookups :
  leaves f (bind getAccounts_async (fun p1 =>
            bind getChainId_async (fun p2 =>
            await (Promise_all p1 p2)))).
Proof.
  destruct frame_getAccounts_async as [HA HpA].
  destruct frame_getChainId_async as [HC HpC].
  apply leaves_bind_val; [exact HA |]. intros w p1 w' H1.
  apply leaves_bind_val; [exact HC |]. intros w2 p2 w2' H2.
  apply leaves_Promise_all; [exact (HpA _ _ _ H1) | exact (HpC _ _ _ H2)].
Qed.

Lemma frame_connect_lookups : leaves f connect_lookups.
Proof.
  pose proof frame_getProvider. pose proof frame_lookups.
  unfold connect_lookups. frame.
Qed.

Lemma frame_switchChain c : leaves f (switchChain c).
Proof.
  destruct frame_isAuthorized_async as [HA Hrest].
  unfold switchChain, switchChain_catch.
  apply leaves_try_catch; [| intros e; frame].
  destruct (find (fun x => strict_eq (chain_id x) c) chains) as [chain |];
    [| frame].
  apply leaves_bind_val; [exact HA |]. intros w p w' Hp.
  rewrite (isAuthorized_async_returns w) in Hp. injection Hp as <- _.
  apply leaves_meanwhile; [apply Hrest | frame].
Qed.

Lemma frame_connect params : leaves f (connect params).
Proof.
  apply (leaves_ext f _ (bind connect_lookups (connect_resolve params)));
    [intros w; apply connect_split |].
  pose proof frame_connect_lookups. pose proof frame_switchChain.
  unfold connect_resolve. frame.
Qed.

End Frame.

Lemma call_emitted {A : Type} (op : Env -> reply A * Env) :
  leaves emitted (call op).
Proof. intros w. unfold call. now destruct (op (env w)). Qed.

Lemma call_logged {A : Type} (op : Env -> reply A * Env) :
  leaves logged (call op).
Proof. intros w. unfold call. now destruct (op (env w)). Qed.

Lemma call___torus {A : Type} (op : Env -> reply A * Env) :
  leaves __torus (call op).
Proof. intros w. unfold call. now destruct (op (env w)). Qed.

Lemma call_network {A : Type} (op : Env -> reply A * Env) :
  leaves network (call op).
Proof. intros w. unfold call. now destruct (op (env w)). Qed.

(** *** The life of the closure variables *)

(** Like [closure], but a method already known to keep the closure
    variables is not opened again. *)
Ltac closure_known :=
  repeat first
    [ solve [auto with closure]
    | apply keeps_bind; [| intros ?]
    | apply keeps_try_catch; [| intros ?]
    | match goal with |- keeps_closure (if ?b then _ else _) => destruct b end
    | match goal with |- keeps_closure (match ?x with _ => _ end) => destruct x end
    | (intros ?; now split) ].

Lemma keeps_getChainId : keeps_closure getChainId.
Proof. unfold getChainId. pose proof keeps_getProvider. closure. Qed.

Lemma keeps_switchChain c : keeps_closure (switchChain c).
Proof.
  apply keeps_leaves. split.
  - apply (frame_switchChain _ __torus); [exact @call___torus | intros g w; reflexivity
                      | intros lvl args w; reflexivity].
  - apply (frame_switchChain _ network); [exact @call_network | intros g w; reflexivity
                      | intros lvl args w; reflexivity].
Qed.

Lemma keeps_connect_lookups : keeps_closure connect_lookups.
Proof.
  apply keeps_leaves. split.
  - apply (frame_connect_lookups _ __torus); [exact @call___torus | intros g w; reflexivity
                      | intros lvl args w; reflexivity].
  - apply (frame_connect_lookups _ network); [exact @call_network | intros g w; reflexivity
                      | intros lvl args w; reflexivity].
Qed.

Lemma keeps_connect params : keeps_closure (connect params).
Proof.
  apply keeps_leaves. split.
  - apply (frame_connect _ __torus); [exact @call___torus | intros g w; reflexivity
                      | intros lvl args w; reflexivity].
  - apply (frame_connect _ network); [exact @call_network | intros g w; reflexivity
                      | intros lvl args w; reflexivity].
Qed.

Lemma keeps_disconnect : keeps_closure disconnect.
Proof.
  intros w. unfold disconnect.
  destruct (__torus w) as [t |] eqn:E.
  - destruct (keeps_call (logout t) w) as [H1 H2]. split; congruence.
  - now split.
Qed.

Lemma keeps_onAccountsChanged a : keeps_closure (onAccountsChanged a).
Proof. unfold onAccountsChanged. closure. Qed.

Lemma keeps_onConnect s : keeps_closure (onConnect s).
Proof. unfold onConnect. pose proof keeps_getAccounts. closure. Qed.

Lemma keeps_perform c : is_setup c = false -> keeps_closure (perform c).
Proof.
  destruct c; cbn [is_setup perform]; intros Hc; try discriminate;
    unfold discard, onChainChanged, onDisconnect;
    pose proof keeps_getProvider; pose proof keeps_getAccounts;
    pose proof keeps_getChainId; pose proof keeps_isAuthorized;
    pose proof keeps_switchChain; pose proof keeps_connect;
    pose proof keeps_disconnect; pose proof keeps_onAccountsChanged;
    pose proof keeps_onConnect; closure_known.
Qed.

(** What [setup] does to the world, in one equation per component. *)
Lemma setup_run w :
  fst (setup w) = Return tt /\
  __torus (snd (setup w))
    = Some (fst (Torus_new
                   {| ctor_buttonPosition :=
                        match buttonPosition options with
                        | Some b => or_string b "bottom-left"
                        | None => "bottom-left"
                        end;
                      ctor_modalZIndex := 9999999999999;
                      ctor_apiKey := apiKey options;
                      ctor_buttonSize := buttonSize options |} (env w))) /\
  network (snd (setup w))
    = match find (fun x => strict_eq (chain_id x) setup_chainId) chains with
      | Some chain =>
          Some {| net_host := setup_host;
                  net_chainId := setup_chainId;
                  networkName := chain_name chain;
                  tickerName := option_map currency_name (nativeCurrency chain);
                  ticker := option_map currency_symbol (nativeCurrency chain);
                  blockExplorer :=
                    match blockExplorers_default_url chain with
                    | Some u => or_string u ""
                    | None => ""
                    end |}
      | None => network w
      end.
Proof.
  unfold setup, bind, call. fold setup_chainId. fold setup_host.
  destruct (Torus_new _ (env w)) as [t e']. cbn.
  destruct (find (fun x => strict_eq (chain_id x) setup_chainId) chains);
    cbn; repeat split.
Qed.

Lemma run_app calls1 calls2 w :
  run (calls1 ++ calls2) w = run calls2 (run calls1 w).
Proof.
  revert w. induction calls1 as [| c rest IH]; intros w; cbn.
  - reflexivity.
  - apply IH.
Qed.

(** X1: only [setup] assigns the closure variables: over a sequence of calls
    without [setup], whatever the calls return or throw, [__torus] and
    [network] keep their values.  In particular [switchChain] leaves
    [network] describing the chain of [setup]. *)
Theorem only_setup_assigns_closure (calls : list Call) (w : World) :
  existsb is_setup calls = false ->
  __torus (run calls w) = __torus w /\ network (run calls w) = network w.
Proof.
  revert w. induction calls as [| c rest IH]; intros w H; cbn in *.
  - now split.
  - apply orb_false_iff in H as [Hc Hrest].
    destruct (IH (snd (perform c w)) Hrest) as [H1 H2].
    destruct (keeps_perform c Hc w) as [H3 H4].
    split; congruence.
Qed.

Lemma run_initialized_iff calls w :
  initialized (run calls w) <->
  initialized w \/ existsb is_setup calls = true.
Proof.
  revert w. induction calls as [| c rest IH]; intros w; cbn.
  - split; [now left | intros [H | H]; [assumption | discriminate]].
  - rewrite IH. destruct (is_setup c) eqn:Hc; cbn.
    + destruct c; try discriminate. cbn [perform].
      split; [now right |]. intros _. left. unfold initialized.
      destruct (setup_run w) as (_ & Ht & _). rewrite Ht. discriminate.
    + destruct (keeps_perform c Hc w) as [Ht _].
      unfold initialized. now rewrite Ht.
Qed.

(** X2: the instance, once created, is never cleared: after a sequence of
    calls [__torus] is defined exactly when it was defined before or the
    sequence contains a [setup]; and then [getTorus] hands out an
    instance. *)
Theorem instance_never_cleared (calls : list Call) (w : World) :
  (initialized (run calls w) <->
   initialized w \/ existsb is_setup calls = true) /\
  (initialized (run calls w) ->
   exists t, getTorus (run calls w) = (Return t, run calls w)).
Proof.
  split; [apply run_initialized_iff |].
  unfold initialized. intros H.
  destruct (__torus (run calls w)) as [t |] eqn:E; [| contradiction].
  exists t. now apply getTorus_initialized.
Qed.

(** X3: [network] is consistent at every moment: if it is undefined or
    describes the chain that [setup] resolves, it still does after any
    sequence of calls.  After a [setup] it is defined exactly when the
    resolved chain id is supported (or it was defined before). *)
Theorem network_stays_consistent (calls : list Call) (w : World) :
  network_consistent w ->
  network_consistent (run calls w) /\
  (network w = None ->
   (network (snd (setup w)) = None <->
    isChainUnsupported setup_chainId = true)).
Proof.
  intros Hw. split.
  - revert w Hw. induction calls as [| c rest IH]; intros w Hw; cbn.
    + exact Hw.
    + apply IH. destruct (is_setup c) eqn:Hc.
      * destruct c; try discriminate. cbn [perform].
        unfold network_consistent.
        destruct (setup_run w) as (_ & _ & Hn). rewrite Hn.
        destruct (find (fun x => strict_eq (chain_id x) setup_chainId) chains)
          as [chain |] eqn:Hf.
        -- split; [reflexivity |]. split; [reflexivity |].
           exists chain. split; [reflexivity |].
           apply find_chain_some in Hf as [_ Heq].
           apply strict_eq_true in Heq.
           unfold describes. cbn. now repeat split.
        -- unfold network_consistent in Hw.
           destruct (network w) as [n |]; [| exact I].
           destruct Hw as (_ & _ & chain & Hch & _).
           rewrite Hf in Hch. discriminate.
      * destruct (keeps_perform c Hc w) as [_ Hn].
        unfold network_consistent in *. now rewrite Hn.
  - intros Hnone. destruct (setup_run w) as (_ & _ & Hn). rewrite Hn.
    unfold isChainUnsupported. rewrite negb_true_iff.
    rewrite <- find_chain_none_iff.
    destruct (find (fun x => strict_eq (chain_id x) setup_chainId) chains).
    + split; discriminate.
    + now split.
Qed.

(** The network that [setup] installs, when it finds the chain. *)
Lemma setup_network_found w chain :
  find (fun x => strict_eq (chain_id x) setup_chainId) chains = Some chain ->
  network (snd (setup w))
    = Some {| net_host := setup_host;
              net_chainId := setup_chainId;
              networkName := chain_name chain;
              tickerName := option_map currency_name (nativeCurrency chain);
              ticker := option_map currency_symbol (nativeCurrency chain);
              blockExplorer :=
                match blockExplorers_default_url chain with
                | Some u => or_string u ""
                | None => ""
                end |}.
Proof. intros Hf. destruct (setup_run w) as (_ & _ & Hn). now rewrite Hn, Hf. Qed.

Lemma setup_network_not_found w :
  find (fun x => strict_eq (chain_id x) setup_chainId) chains = None ->
  network (snd (setup w)) = network w.
Proof. intros Hf. destruct (setup_run w) as (_ & _ & Hn). now rewrite Hn, Hf. Qed.

(** X14: the first [setup] fixes [network] for good: no later call, a
    further [setup] included, changes it; while every [setup] installs
    the instance that the SDK's constructor has just returned. *)
Theorem network_fixed_by_first_setup (calls : list Call) (w : World) :
  network (run calls (snd (setup w))) = network (snd (setup w)) /\
  network (snd (setup (snd (setup w)))) = network (snd (setup w)) /\
  (forall w0,
      __torus (snd (setup w0))
        = Some (fst (Torus_new
                       {| ctor_buttonPosition :=
                            match buttonPosition options with
                            | Some b => or_string b "bottom-left"
                            | None => "bottom-left"
                            end;
                          ctor_modalZIndex := 9999999999999;
                          ctor_apiKey := apiKey options;
                          ctor_buttonSize := buttonSize options |} (env w0)))).
Proof.
  assert (Hstep : forall c w0,
             network w0 = network (snd (setup w)) ->
             network (snd (perform c w0)) = network (snd (setup w))).
  { intros c w0 H0. destruct (is_setup c) eqn:Hc.
    - destruct c; try discriminate. cbn [perform].
      destruct (find (fun x => strict_eq (chain_id x) setup_chainId) chains)
        as [chain |] eqn:Hf.
      + now rewrite !(setup_network_found _ chain Hf).
      + now rewrite (setup_network_not_found _ Hf).
    - now rewrite (proj2 (keeps_perform c Hc w0)). }
  split; [| split].
  - generalize (eq_refl (network (snd (setup w)))).
    generalize (snd (setup w)) at 1 3 as w0.
    induction calls as [| c rest IH]; intros w0 H0; cbn [run].
    + exact H0.
    + apply IH. now apply Hstep.
  - exact (Hstep call_setup (snd (setup w)) eq_refl).
  - intros w0. exact (proj1 (proj2 (setup_run w0))).
Qed.

(** *** What the calls leave alone *)

Lemma begin_emitted g : leaves emitted (begin g).
Proof. intros w. reflexivity. Qed.

Lemma begin_logged g : leaves logged (begin g).
Proof. intros w. reflexivity. Qed.

Lemma log_emitted lvl args : leaves emitted (log lvl args).
Proof. intros w. reflexivity. Qed.

Ltac frame_emitted :=
  first [exact @call_emitted | exact begin_emitted | exact log_emitted].

Lemma getProvider_emitted : leaves emitted getProvider.
Proof. apply frame_getProvider; frame_emitted. Qed.

Lemma getAccounts_emitted : leaves emitted getAccounts.
Proof. apply frame_getAccounts; frame_emitted. Qed.

Lemma getChainId_emitted : leaves emitted getChainId.
Proof. apply frame_getChainId; frame_emitted. Qed.

Lemma isAuthorized_emitted : leaves emitted isAuthorized.
Proof. apply frame_isAuthorized; frame_emitted. Qed.

Lemma switchChain_emitted c : leaves emitted (switchChain c).
Proof. apply frame_switchChain; frame_emitted. Qed.

Lemma connect_emitted params : leaves emitted (connect params).
Proof. apply frame_connect; frame_emitted. Qed.

Lemma disconnect_emitted : leaves emitted disconnect.
Proof.
  intros w. unfold disconnect.
  destruct (__torus w) as [t |]; [apply call_emitted | reflexivity].
Qed.

Lemma setup_emitted : leaves emitted setup.
Proof. pose proof @call_emitted. unfold setup. frame. Qed.

Lemma perform_emitted c : is_relay c = false -> leaves emitted (perform c).
Proof.
  destruct c; cbn [is_relay perform]; intros Hc; try discriminate;
    unfold discard.
  - apply setup_emitted.
  - apply leaves_bind; [apply connect_emitted | intros ? ? ; reflexivity].
  - apply disconnect_emitted.
  - apply leaves_bind; [apply getAccounts_emitted | intros ? ?; reflexivity].
  - apply leaves_bind; [apply getChainId_emitted | intros ? ?; reflexivity].
  - apply leaves_bind; [apply getProvider_emitted | intros ? ?; reflexivity].
  - apply leaves_bind; [apply isAuthorized_emitted | intros ? ?; reflexivity].
  - apply leaves_bind; [apply switchChain_emitted | intros ? ?; reflexivity].
Qed.

Lemma perform_relay_emitted c w :
  is_relay c = true ->
  emitted (snd (perform c w)) = emitted w \/
  exists ev, emitted (snd (perform c w)) = emitted w ++ [ev].
Proof.
  destruct c; cbn [is_relay perform]; intros Hc; try discriminate.
  - unfold onAccountsChanged. destruct accounts as [| a0 rest].
    + right. now eexists.
    + destruct (truthy_string a0); cbn [negb].
      * destruct (getAddress a0); [right; now eexists | now left].
      * right. now eexists.
  - right. now eexists.
  - unfold onConnect, bind. pose proof (getAccounts_emitted w) as H.
    destruct (getAccounts w) as [[accounts | e] w1]; cbn [snd] in *.
    + right. eexists. cbn. now rewrite H.
    + now left.
  - right. now eexists.
Qed.

(** X4: only the four event relays emit: every other call, whatever it
    returns or throws, leaves the emitter's trace as it is, and a relay
    adds at most one event.  So over a sequence of calls the trace grows
    by at most as many events as there are relay calls, and nothing
    already emitted is touched. *)
Theorem only_relays_emit (calls : list Call) (w : World) :
  (forall c, is_relay c = false -> emitted (snd (perform c w)) = emitted w) /\
  (forall c, is_relay c = true ->
             emitted (snd (perform c w)) = emitted w \/
             exists ev, emitted (snd (perform c w)) = emitted w ++ [ev]) /\
  exists evs,
    emitted (run calls w) = emitted w ++ evs /\
    length evs <= length (filter is_relay calls).
Proof.
  split; [intros c Hc; now apply perform_emitted |].
  split; [intros c Hc; now apply perform_relay_emitted |].
  revert w. induction calls as [| c rest IH]; intros w; cbn [run filter].
  - exists []. split; [now rewrite app_nil_r | cbn; lia].
  - destruct (IH (snd (perform c w))) as (evs & Hevs & Hlen).
    destruct (is_relay c) eqn:Hc.
    + destruct (perform_relay_emitted c w Hc) as [H | [ev H]].
      * exists evs. rewrite Hevs, H. split; [reflexivity | cbn; lia].
      * exists (ev :: evs). rewrite Hevs, H, <- app_assoc.
        split; [reflexivity | cbn; lia].
    + exists evs. rewrite Hevs, (perform_emitted c Hc w).
      split; [reflexivity | assumption].
Qed.

(** X5: [onConnect] emits exactly one connect event, carrying the accounts
    that [getAccounts] returned and [Number] of the chain id it was given,
    when the account lookup succeeds; when the lookup throws, the error
    leaves [onConnect] and nothing is emitted. *)
Theorem onConnect_emits (s : string) (w : World) :
  (forall accounts w1,
      getAccounts w = (Return accounts, w1) ->
      fst (onConnect s w) = Return tt /\
      emitted (snd (onConnect s w))
        = emitted w ++ [EmitConnect accounts (Number s)]) /\
  (forall e w1,
      getAccounts w = (Throw e, w1) ->
      onConnect s w = (Throw e, w1) /\ emitted w1 = emitted w).
Proof.
  pose proof (getAccounts_emitted w) as H. unfold onConnect, bind. split.
  - intros accounts w1 HA. rewrite HA in *. cbn in *. now rewrite H.
  - intros e w1 HA. rewrite HA in *. now split.
Qed.

(** X6: every failure of [switchChain] is logged once, at error level, with
    the very cause that the [SwitchChainError] wraps; a successful switch
    logs nothing. *)
Theorem switchChain_logs_failure (c : number) (w : World) :
  (forall chain w',
      switchChain c w = (Return chain, w') -> logged w' = logged w) /\
  (forall cause w',
      switchChain c w = (Throw (SwitchChainError cause), w') ->
      logged w' = logged w ++ [(LogErr, [LogString "Error: Cannot change chain";
                                         LogError cause])]).
Proof.
  rewrite (switchChain_run c w).
  destruct (frame_isAuthorized_async _ logged (@call_logged) begin_logged)
    as [HA Hrest].
  specialize (HA w). specialize (Hrest w).
  destruct (find (fun x => strict_eq (chain_id x) c) chains) as [chain |].
  - cbv zeta. destruct (__torus w) as [t |].
    + pose proof (call_logged (setProvider t (setProvider_args chain c))
                    (snd (isAuthorized_async w))) as HC.
      pose proof (Hrest (snd (call (setProvider t (setProvider_args chain c))
                                (snd (isAuthorized_async w))))) as HR.
      destruct (fst (setProvider t (setProvider_args chain c)
                       (env (snd (isAuthorized_async w))))) as [[] | reason].
      * split; [| intros cause w' [=]].
        intros chain' w' [= <- <-]. congruence.
      * rewrite switchChain_catch_run. split; [intros chain' w' [=] |].
        intros cause w' [= <- <-]. cbn. congruence.
    + pose proof (Hrest (snd (isAuthorized_async w))) as HR.
      rewrite switchChain_catch_run. split; [intros chain' w' [=] |].
      intros cause w' [= <- <-]. cbn. congruence.
  - rewrite switchChain_catch_run. split; [intros chain' w' [=] |].
    intros cause w' [= <- <-]. reflexivity.
Qed.

(** *** What the calls throw *)

Lemma isAuthorized_returns w : exists b w', isAuthorized w = (Return b, w').
Proof.
  unfold isAuthorized, try_catch, bind.
  destruct (getProvider w) as [[o | e] w1]; [| now eexists; eexists].
  destruct (getAccounts w1) as [[accounts | e] w2]; now eexists; eexists.
Qed.

Lemma keeps_frame {A : Type} (m : M A) :
  (forall (C : Type) (f : World -> C),
      (forall (B : Type) (op : Env -> reply B * Env), leaves f (call op)) ->
      (forall g : Env -> Env, leaves f (begin g)) ->
      (forall lvl args, leaves f (log lvl args)) ->
      leaves f m) ->
  keeps_closure m.
Proof.
  intros H. apply keeps_leaves.
  split; apply H;
    first [exact @call___torus | exact @call_network
          | intros g w; reflexivity | intros lvl args w; reflexivity].
Qed.

Lemma keeps_getProvider_pending w p w' :
  getProvider_async w = (Return p, w') -> keeps_closure (await p).
Proof.
  intros H. apply keeps_frame. intros C f H1 H2 _.
  eapply frame_getProvider_pending; eassumption.
Qed.

Lemma keeps_getAccounts_async : keeps_closure getAccounts_async.
Proof.
  apply keeps_frame. intros C f H1 H2 _.
  exact (proj1 (frame_getAccounts_async C f H1 H2)).
Qed.

Lemma keeps_getAccounts_pending w p w' :
  getAccounts_async w = (Return p, w') -> keeps_closure (await p).
Proof.
  intros H. apply keeps_frame. intros C f H1 H2 _.
  exact (proj2 (frame_getAccounts_async C f H1 H2) w p w' H).
Qed.

Lemma keeps_getChainId_async : keeps_closure getChainId_async.
Proof.
  apply keeps_frame. intros C f H1 H2 H3.
  exact (proj1 (frame_getChainId_async C f H1 H2 H3)).
Qed.

Lemma keeps_getChainId_pending w p w' :
  getChainId_async w = (Return p, w') -> keeps_closure (await p).
Proof.
  intros H. apply keeps_frame. intros C f H1 H2 H3.
  exact (proj2 (frame_getChainId_async C f H1 H2 H3) w p w' H).
Qed.

Lemma getAccounts_async_returns w :
  exists p, getAccounts_async w = (Return p, snd (getAccounts_async w)).
Proof. apply async_returns. Qed.

Lemma getChainId_async_returns w :
  exists p, getChainId_async w = (Return p, snd (getChainId_async w)).
Proof. apply async_returns. Qed.

Section ErrorKinds.

(** [I] holds of the worlds in which the calls start and is kept by
    whatever keeps the closure variables; [U] covers what [getTorus]
    throws in such worlds. *)
Variable I : World -> Prop.
Variable U : error -> Prop.
Hypothesis I_kept :
  forall (A : Type) (m : M A), keeps_closure m -> forall w, I w -> I (snd (m w)).
Hypothesis U_getTorus : throws_only I U getTorus.

Lemma throws_bind {A B : Type} P (m : M A) (k : A -> M B) :
  keeps_closure m -> throws_only I P m -> (forall a, throws_only I P (k a)) ->
  throws_only I P (bind m k).
Proof.
  intros HK Hm Hk w e w' Hw. unfold bind.
  destruct (m w) as [[a | e0] w1] eqn:E.
  - apply (Hk a w1 e w'). specialize (I_kept _ m HK w Hw).
    now rewrite E in I_kept.
  - intros [= <- <-]. exact (Hm w e0 w1 Hw E).
Qed.

Lemma throws_weaken {A : Type} (P Q : error -> Prop) (m : M A) :
  (forall e, P e -> Q e) -> throws_only I P m -> throws_only I Q m.
Proof. intros HPQ Hm w e w' Hw H. exact (HPQ e (Hm w e w' Hw H)). Qed.

Lemma throws_call {A : Type} (op : Env -> reply A * Env) :
  throws_only I sdk_error (call op).
Proof.
  intros w e w' _. unfold call.
  destruct (op (env w)) as [[a | reason] e1]; cbn; [discriminate |].
  intros [= <- _]. now exists reason.
Qed.

Lemma throws_deref P p :
  (forall message, P (TypeError message)) -> throws_only I P (deref p).
Proof.
  intros HP w e w' _. destruct p; cbn; [discriminate |].
  intros [= <- _]. apply HP.
Qed.

Lemma getProvider_throws : throws_only I (provider_error U) getProvider.
Proof.
  unfold getProvider.
  apply throws_bind; [apply keeps_getTorus | |].
  { apply (throws_weaken U); [now left | exact U_getTorus]. }
  intros t. apply throws_bind; [apply keeps_read | now intros w e w' _ |].
  intros initialized. apply throws_bind.
  - destruct (negb initialized); closure.
  - destruct (negb initialized).
    + apply throws_bind; [now intros w | now intros w e w' _ |].
      intros nw. apply (throws_weaken sdk_error); [now right |].
      apply throws_call.
    + now intros w e w' _.
  - intros _. apply throws_bind.
    + destruct (option_map showTorusButton_param (TorusParams_opt options))
        as [[[|] |] |]; closure.
    + destruct (option_map showTorusButton_param (TorusParams_opt options))
        as [[[|] |] |];
        try (apply (throws_weaken sdk_error); [now right | apply throws_call]).
      now intros w e w' _.
    + intros _. now intros w e w' _.
Qed.

Lemma reduce_accounts_throws raw :
  forall acc e, reduce_accounts raw acc = Throw e ->
                exists a, e = InvalidAddressError a.
Proof.
  induction raw as [| [a |] rest IH]; intros acc e; cbn.
  - discriminate.
  - destruct (truthy_string a); [| apply IH].
    destruct (getAddress a); [apply IH |]. intros [= <-]. now exists a.
  - apply IH.
Qed.

Lemma getProvider_tail_throws t :
  throws_only I (provider_error U) (getProvider_tail t).
Proof.
  unfold getProvider_tail. apply throws_bind.
  - destruct (option_map showTorusButton_param (TorusParams_opt options))
      as [[[|] |] |]; closure.
  - destruct (option_map showTorusButton_param (TorusParams_opt options))
      as [[[|] |] |];
      try (apply (throws_weaken sdk_error); [now right | apply throws_call]).
    now intros w e w' _.
  - intros _. now intros w e w' _.
Qed.

(** What the promise of a call of [getProvider] in the world [w] can reject
    with, whenever it is awaited. *)
Lemma getProvider_pending_throws w p w' :
  I w -> getProvider_async w = (Return p, w') ->
  throws_only I (provider_error U) (await p).
Proof.
  intros Hw. rewrite getProvider_async_run.
  destruct (__torus w) as [t |] eqn:Ht.
  - destruct (isInitialized t (env w)); intros [= <- _]; cbn [await].
    + intros w0 e w0' _ [= H _].
      destruct (getProvider_tail t w) as [c w1] eqn:E. cbn [fst] in H.
      subst c. exact (getProvider_tail_throws t w e w1 Hw E).
    + apply throws_bind; [apply keeps_call | |].
      * apply (throws_weaken sdk_error); [now right | apply throws_call].
      * intros _. apply getProvider_tail_throws.
  - intros [= <- _] w0 e w0' _ [= <- _]. left.
    exact (U_getTorus w _ w Hw (getTorus_uninitialized w Ht)).
Qed.

Lemma getAccounts_resume_throws provider :
  throws_only I (accounts_error U) (getAccounts_resume provider).
Proof.
  unfold getAccounts_resume.
  apply throws_bind; [apply keeps_deref | |].
  { apply throws_deref. intros message. left. right. now exists message. }
  intros p. apply throws_bind; [apply keeps_call | |].
  { apply (throws_weaken sdk_error); [| apply throws_call].
    intros e He. left. left. now right. }
  intros [l |]; [| now intros w e w' _].
  destruct (Nat.eqb (length l) 0); [now intros w e w' _ |].
  intros w e w' _ [= H _]. right. now apply reduce_accounts_throws in H.
Qed.

Lemma getAccounts_pending_throws w p w' :
  I w -> getAccounts_async w = (Return p, w') ->
  throws_only I (accounts_error U) (await p).
Proof.
  intros Hw H.
  destruct (after_getProvider_async_run
              (fun pending =>
                 bind (await pending)
                   (fun provider => getAccounts_resume provider)) w)
    as (pending & Hp & Heq).
  unfold getAccounts_async in H. rewrite Heq in H. injection H as <- _.
  cbn [await]. apply throws_bind.
  - exact (keeps_getProvider_pending _ _ _ Hp).
  - apply (throws_weaken (provider_error U));
      [| exact (getProvider_pending_throws _ _ _ Hw Hp)].
    intros e He. left. now left.
  - apply getAccounts_resume_throws.
Qed.

Lemma getChainId_resume_throws provider :
  throws_only I (request_error U) (getChainId_resume provider).
Proof.
  unfold getChainId_resume.
  apply throws_bind; [apply keeps_deref | |].
  { apply throws_deref. intros message. right. now exists message. }
  intros p. apply throws_bind; [apply keeps_call | |].
  { apply (throws_weaken sdk_error); [| apply throws_call].
    intros e He. left. now right. }
  intros s. now intros w e w' _.
Qed.

Lemma getChainId_pending_throws w p w' :
  I w -> getChainId_async w = (Return p, w') ->
  throws_only I (request_error U) (await p).
Proof.
  intros Hw H.
  destruct (after_getProvider_async_run
              (fun pending =>
                 bind (await pending)
                   (fun provider => getChainId_resume provider)) w)
    as (pending & Hp & Heq).
  unfold getChainId_async in H. rewrite Heq in H. injection H as <- _.
  cbn [await]. apply throws_bind.
  - exact (keeps_getProvider_pending _ _ _ Hp).
  - apply (throws_weaken (provider_error U));
      [| exact (getProvider_pending_throws _ _ _ Hw Hp)].
    intros e He. now left.
  - apply getChainId_resume_throws.
Qed.

Lemma getAccounts_throws : throws_only I (accounts_error U) getAccounts.
Proof.
  unfold getAccounts.
  apply throws_bind; [apply keeps_getProvider | |].
  { apply (throws_weaken (provider_error U)); [| apply getProvider_throws].
    intros e He. left. now left. }
  intros provider. apply throws_bind; [apply keeps_deref | |].
  { apply throws_deref. intros message. left. right. now exists message. }
  intros p. apply throws_bind; [apply keeps_call | |].
  { apply (throws_weaken sdk_error); [| apply throws_call].
    intros e He. left. left. now right. }
  intros [l |]; [| now intros w e w' _].
  destruct (Nat.eqb (length l) 0); [now intros w e w' _ |].
  intros w e w' _ [= H _]. right. now apply reduce_accounts_throws in H.
Qed.

Lemma getChainId_throws : throws_only I (request_error U) getChainId.
Proof.
  unfold getChainId.
  apply throws_bind; [apply keeps_getProvider | |].
  { apply (throws_weaken (provider_error U)); [| apply getProvider_throws].
    intros e He. now left. }
  intros provider. apply throws_bind; [apply keeps_deref | |].
  { apply throws_deref. intros message. right. now exists message. }
  intros p. apply throws_bind; [apply keeps_call | |].
  { apply (throws_weaken sdk_error); [| apply throws_call].
    intros e He. left. now right. }
  intros s. now intros w e w' _.
Qed.

Lemma switchChain_throws c : throws_only I (switch_error U) (switchChain c).
Proof.
  intros w e w' Hw. rewrite (switchChain_run c w).
  destruct (find (fun x => strict_eq (chain_id x) c) chains) as [chain |].
  - cbv zeta. destruct (__torus w) as [t |] eqn:Ht.
    + destruct (fst (setProvider t (setProvider_args chain c)
                       (env (snd (isAuthorized_async w))))) as [[] | reason].
      * discriminate.
      * rewrite switchChain_catch_run. intros [= <- _].
        eexists. split; [reflexivity |]. right. right. now exists reason.
    + rewrite switchChain_catch_run. intros [= <- _].
      eexists. split; [reflexivity |]. right. left.
      exact (U_getTorus w _ w Hw (getTorus_uninitialized w Ht)).
  - rewrite switchChain_catch_run. intros [= <- _].
    eexists. split; [reflexivity |]. now left.
Qed.

Lemma connect_lookups_throws :
  throws_only I (accounts_error U) connect_lookups.
Proof.
  assert (Hsdk : forall A (op : Env -> reply A * Env),
             throws_only I (accounts_error U) (call op)).
  { intros A op. apply (throws_weaken sdk_error); [| apply throws_call].
    intros e He. left. left. now right. }
  assert (HT : throws_only I (accounts_error U) getTorus).
  { apply (throws_weaken U); [| exact U_getTorus].
    intros e He. left. left. now left. }
  unfold connect_lookups.
  apply throws_bind; [apply keeps_getProvider | |].
  { apply (throws_weaken (provider_error U)); [| apply getProvider_throws].
    intros e He. left. now left. }
  intros provider. apply throws_bind; [apply keeps_getTorus | exact HT |].
  intros t. apply throws_bind; [apply keeps_read | now intros w e w' _ |].
  intros loggedIn. apply throws_bind.
  { destruct (negb loggedIn); closure. }
  { destruct (negb loggedIn); [| now intros w e w' _].
    apply throws_bind; [apply keeps_getTorus | exact HT |].
    intros t'. apply Hsdk. }
  intros _. apply throws_bind; [apply keeps_deref | |].
  { apply throws_deref. intros message. left. right. now exists message. }
  intros p. apply throws_bind; [apply keeps_call | apply Hsdk |].
  intros _. apply throws_bind; [apply keeps_call | apply Hsdk |].
  intros _ w e w' Hw. unfold bind.
  pose proof (I_kept _ getAccounts_async keeps_getAccounts_async w Hw) as Hw1.
  destruct (getAccounts_async_returns w) as (p1 & E1).
  rewrite E1. rewrite E1 in Hw1. cbn [snd] in Hw1.
  set (w1 := snd (getAccounts_async w)) in *.
  pose proof (I_kept _ getChainId_async keeps_getChainId_async w1 Hw1) as Hw2.
  destruct (getChainId_async_returns w1) as (p2 & E2).
  rewrite E2. set (w2 := snd (getChainId_async w1)) in *.
  unfold Promise_all. cbn [await].
  pose proof (I_kept _ (await p1) (keeps_getAccounts_pending _ _ _ E1) w2 Hw2)
    as Hw3.
  destruct (await p1 w2) as [[accounts | e1] w3] eqn:EA; cbn [snd] in Hw3;
    destruct (await p2 w3) as [[n | e2] w4] eqn:EC.
  - discriminate.
  - intros [= <- _]. left.
    exact (getChainId_pending_throws _ _ _ Hw1 E2 w3 e2 w4 Hw3 EC).
  - intros [= <- _].
    exact (getAccounts_pending_throws _ _ _ Hw E1 w2 e1 w3 Hw2 EA).
  - intros [= <- _].
    exact (getAccounts_pending_throws _ _ _ Hw E1 w2 e1 w3 Hw2 EA).
Qed.

Lemma connect_throws params : throws_only I (connect_error U) (connect params).
Proof.
  intros w e w' Hw. rewrite connect_split. unfold bind.
  pose proof (I_kept _ connect_lookups keeps_connect_lookups w Hw) as Hw1.
  destruct (connect_lookups w) as [[[accounts cid] | e1] w1] eqn:EL.
  - cbn [snd] in Hw1. unfold connect_resolve, bind. cbn [fst snd].
    assert (Hfinal : forall (r : number * bool) w0,
               (if snd r
                then throw (SwitchChainError (Error "chain not found on connector."))
                else ret (accounts, fst r)) w0 = (Throw e, w') ->
               connect_error U e).
    { intros [id [|]] w0; cbn; [| discriminate].
      intros [= <- _]. right. now left. }
    destruct params as [c |]; [| apply Hfinal].
    destruct (truthy_number c && strict_neq cid c && switchChain_is_function);
      [| apply Hfinal].
    destruct (switchChain c w1) as [[chain | e2] w2] eqn:ES; [apply Hfinal |].
    intros [= <- _]. right. right. exact (switchChain_throws c w1 e2 w2 Hw1 ES).
  - intros [= <- _]. left. exact (connect_lookups_throws w e1 w1 Hw EL).
Qed.

Lemma discard_throws {A : Type} P (m : M A) :
  throws_only I P m -> throws_only I P (discard m).
Proof.
  intros Hm w e w' Hw. unfold discard, bind.
  destruct (m w) as [[a | e0] w1] eqn:E; [discriminate |].
  intros [= <- <-]. exact (Hm w e0 w1 Hw E).
Qed.

Lemma perform_throws c : throws_only I (may_throw U c) (perform c).
Proof.
  destruct c; cbn [perform may_throw].
  - intros w e w' _ H. destruct (setup_run w) as (Hr & _).
    rewrite H in Hr. discriminate.
  - apply discard_throws, connect_throws.
  - intros w e w' Hw. unfold disconnect.
    destruct (__torus w) as [t |]; [| discriminate].
    exact (throws_call (logout t) w e w' Hw).
  - apply discard_throws, getAccounts_throws.
  - apply discard_throws, getChainId_throws.
  - apply discard_throws, getProvider_throws.
  - intros w e w' _. unfold discard, bind.
    destruct (isAuthorized_returns w) as (b & w1 & ->). discriminate.
  - apply discard_throws, switchChain_throws.
  - intros w e w' _. unfold onAccountsChanged.
    destruct accounts as [| a0 rest]; [discriminate |].
    destruct (truthy_string a0); cbn [negb]; [| discriminate].
    destruct (getAddress a0); [discriminate |].
    intros [= <- _]. now exists a0.
  - intros w e w' _. discriminate.
  - intros w e w' Hw. unfold onConnect, bind.
    destruct (getAccounts w) as [[accounts | e0] w1] eqn:E; [discriminate |].
    intros [= <- <-]. exact (getAccounts_throws w e0 w1 Hw E).
  - intros w e w' _. discriminate.
Qed.

End ErrorKinds.

(** X7: each call throws only the kinds of errors listed in [may_throw]:
    [setup], [isAuthorized], [onChainChanged] and [onDisconnect] throw
    nothing; [disconnect] only what the SDK's [logout] rejects with;
    [getProvider] the missing-instance error or an SDK rejection; a
    request also a [TypeError]; [getAccounts] and [onConnect] also an
    address error; [switchChain] a [SwitchChainError] whose cause is
    "chain not found", the missing instance or an SDK rejection; [connect]
    any of these, or the [SwitchChainError] of its final check. *)
Theorem calls_throw_only (c : Call) (w : World) (e : error) (w' : World) :
  perform c w = (Throw e, w') -> may_throw missing_instance c e.
Proof.
  apply (perform_throws (fun _ => True) missing_instance); [| | exact I].
  - intros A m _ w0 _. exact I.
  - intros w0 e0 w0' _. unfold getTorus.
    destruct (__torus w0); [discriminate |]. now intros [= <- _].
Qed.

Lemma initialized_kept (A : Type) (m : M A) :
  keeps_closure m -> forall w, initialized w -> initialized (snd (m w)).
Proof. intros Hm w Hw. unfold initialized. now rewrite (proj1 (Hm w)). Qed.

Lemma getTorus_initialized_throws : throws_only initialized no_error getTorus.
Proof.
  intros w e w' Hw. unfold getTorus.
  destruct (__torus w) eqn:E; [discriminate | now elim Hw].
Qed.

Lemma may_throw_no_error c e :
  may_throw no_error c e ->
  e <> uninitialized /\ e <> SwitchChainError uninitialized.
Proof.
  unfold no_error.
  destruct c; cbn;
    unfold connect_error, switch_error, switch_cause, accounts_error,
      request_error, provider_error, sdk_error, uninitialized, chain_not_found;
    intros H; split; intros ->;
    repeat match goal with
           | H : _ \/ _ |- _ => destruct H
           | H : exists _, _ |- _ => destruct H
           | H : _ /\ _ |- _ => destruct H
           | H : False |- _ => contradiction
           | H : SwitchChainError _ = SwitchChainError _ |- _ =>
               injection H as H; subst
           | H : _ = _ |- _ => discriminate H
           end.
Qed.

(** X8: the missing-instance error belongs to the time before [setup]: once
    the instance exists, and so after every sequence of calls with a
    [setup] in it, no call throws "Torus instance not initialized", and
    [switchChain] and [connect] do not wrap it either; what a call throws
    is then among the remaining kinds of [may_throw]. *)
Theorem no_missing_instance_after_setup
    (calls : list Call) (c : Call) (w : World) (e : error) (w' : World) :
  initialized w \/ existsb is_setup calls = true ->
  perform c (run calls w) = (Throw e, w') ->
  may_throw no_error c e /\
  e <> uninitialized /\ e <> SwitchChainError uninitialized.
Proof.
  intros Hinit H.
  assert (Hm : may_throw no_error c e).
  { apply (perform_throws initialized no_error initialized_kept
             getTorus_initialized_throws c (run calls w) e w'); [| exact H].
    now apply run_initialized_iff. }
  split; [exact Hm | now apply may_throw_no_error with c].
Qed.

(** *** Supported chains *)

Lemma strict_eq_iff a b : strict_eq a b = true <-> a = b /\ a <> NaN.
Proof.
  split.
  - intros H. split; [now apply strict_eq_true |].
    intros ->. discriminate.
  - intros [<- Hn]. destruct a as [| z]; [now elim Hn | apply Z.eqb_refl].
Qed.

(** X9: [isChainUnsupported] and the lookups with [find] agree: a chain id
    is supported exactly when it is not [NaN] and is the id of a chain of
    the list, and exactly then [find], as used by [setup] and
    [switchChain], finds a chain.  [NaN] is never supported, not even by a
    chain whose id is [NaN]. *)
Theorem isChainUnsupported_iff (c : number) :
  (isChainUnsupported c = false <->
   c <> NaN /\ exists chain, In chain chains /\ chain_id chain = c) /\
  (isChainUnsupported c = true <->
   find (fun x => strict_eq (chain_id x) c) chains = None) /\
  isChainUnsupported NaN = true.
Proof.
  unfold isChainUnsupported. split; [| split].
  - rewrite negb_false_iff, existsb_exists. split.
    + intros (chain & Hin & Heq). apply strict_eq_iff in Heq as [Heq Hn].
      split; [congruence | now exists chain].
    + intros (Hn & chain & Hin & Heq). exists chain. split; [assumption |].
      apply strict_eq_iff. split; congruence.
  - rewrite negb_true_iff. symmetry. apply find_chain_none_iff.
  - rewrite negb_true_iff.
    destruct (existsb (fun x => strict_eq (chain_id x) NaN) chains) eqn:E;
      [| reflexivity].
    apply existsb_exists in E as (chain & _ & Heq).
    apply strict_eq_iff in Heq as [Heq Hn]. congruence.
Qed.

(** *** Connecting without a switch *)

(** X10: a target chain id that is falsy ([0] or [NaN]), or that is the id
    the wallet is connected to, is as good as none: [connect] behaves as
    without a target.  And without a target [connect] does nothing after
    the lookups but the check: it returns their accounts and chain id, or
    throws if that id is not supported, in the world the lookups left. *)
Theorem connect_without_switch (c : number) (w : World) :
  (truthy_number c = false -> connect (Some c) w = connect None w) /\
  (forall accounts cid w1,
      connect_lookups w = (Return (accounts, cid), w1) ->
      strict_eq cid c = true ->
      connect (Some c) w = connect None w) /\
  (forall accounts cid w1,
      connect_lookups w = (Return (accounts, cid), w1) ->
      connect None w =
        if isChainUnsupported cid
        then (Throw (SwitchChainError chain_not_found), w1)
        else (Return (accounts, cid), w1)).
Proof.
  split; [| split].
  - intros Hc. rewrite !connect_split. apply bind_ext.
    intros [accounts cid] w1.
    rewrite !connect_resolve_no_switch; [reflexivity | now left |].
    right. exists c. split; [reflexivity | now left].
  - intros accounts cid w1 HL Heq.
    rewrite !connect_split, !(bind_Return _ _ _ _ _ HL).
    rewrite !connect_resolve_no_switch; [reflexivity | now left |].
    right. exists c. split; [reflexivity |]. right.
    unfold strict_neq. now rewrite Heq.
  - intros accounts cid w1 HL.
    rewrite connect_split, (bind_Return _ _ _ _ _ HL).
    apply connect_resolve_no_switch. now left.
Qed.

(** X11: when the wallet's chain id converts to [NaN], [connect] without a
    truthy target throws the unsupported-chain error whatever the chain
    list is; with a truthy target it always attempts the switch, and the
    outcome of the switch is the outcome of [connect]. *)
Theorem connect_malformed_chain_id
    (params : option number) (w : World) (accounts : list Address)
    (w1 : World) :
  connect_lookups w = (Return (accounts, NaN), w1) ->
  (params = None \/ (exists c, params = Some c /\ truthy_number c = false) ->
   connect params w = (Throw (SwitchChainError chain_not_found), w1)) /\
  (forall c,
      params = Some c -> truthy_number c = true ->
      connect params w =
        match switchChain c w1 with
        | (Return chain, w2) => (Return (accounts, chain_id chain), w2)
        | (Throw e, w2) => (Throw e, w2)
        end).
Proof.
  intros HL.
  assert (Hnan : isChainUnsupported NaN = true).
  { unfold isChainUnsupported. rewrite negb_true_iff.
    destruct (existsb (fun x => strict_eq (chain_id x) NaN) chains) eqn:E;
      [| reflexivity].
    apply existsb_exists in E as (chain & _ & Heq).
    apply strict_eq_iff in Heq as [Heq Hn]. congruence. }
  split.
  - intros Hp. rewrite connect_split, (bind_Return _ _ _ _ _ HL).
    rewrite connect_resolve_no_switch.
    + now rewrite Hnan.
    + destruct Hp as [-> | (c & -> & Hc)]; [now left |].
      right. exists c. split; [reflexivity | now left].
  - intros c -> Hc. rewrite connect_split, (bind_Return _ _ _ _ _ HL).
    now apply connect_resolve_switch.
Qed.

(** *** More on the lookups *)

Lemma Forall2_checksum_In l cs a :
  Forall2 checksum_of l cs -> In a l -> exists c, In c cs /\ checksum_of a c.
Proof.
  induction 1 as [| x y l l' Hxy Hl IH]; intros Hin.
  - contradiction.
  - destruct Hin as [-> | Hin].
    + exists y. split; [now left | assumption].
    + destruct (IH Hin) as (c & Hc & Hac). exists c.
      split; [now right | assumption].
Qed.

Lemma Forall2_checksum_NoDup l cs :
  Forall2 checksum_of l cs -> NoDup cs -> NoDup l.
Proof.
  induction 1 as [| x y l l' Hxy Hl IH]; intros Hnd.
  - constructor.
  - inversion Hnd as [| y' l'' Hnotin Hnd']; subst. constructor.
    + intros Hin. destruct (Forall2_checksum_In _ _ _ Hl Hin) as (c & Hc & Hxc).
      unfold checksum_of in *. congruence.
    + now apply IH.
Qed.

Lemma nonempty_entries_length raw :
  length (nonempty_entries raw) <= length raw /\
  (Forall (fun o => exists a, o = Some a /\ truthy_string a = true) raw ->
   nonempty_entries raw = map (fun o => match o with
                                        | Some a => a
                                        | None => ""
                                        end) raw).
Proof.
  induction raw as [| [a |] rest [IH1 IH2]]; cbn.
  - split; [lia | reflexivity].
  - split.
    + destruct (truthy_string a); cbn; lia.
    + intros H. inversion H as [| x l Hx Hrest]; subst.
      destruct Hx as (a' & Ha' & Ha). injection Ha' as <-.
      rewrite Ha. now rewrite (IH2 Hrest).
  - split; [lia |].
    intros H. inversion H as [| x l Hx Hrest]; subst.
    destruct Hx as (a' & Ha' & _). discriminate.
Qed.

(** X12: [getAccounts] drops the null and the empty entries and nothing else:
    the list it returns has one account per remaining entry, so it is no
    longer than the answer, it is as long as the answer when no entry is
    null or empty, and it repeats an account when the answer repeats an
    address. *)
Theorem getAccounts_drops_only_empty
    (w w1 : World) (p : Provider) (l : list (option string)) (e' : Env)
    (cs : list Address) :
  getProvider w = (Return (Some p), w1) ->
  request_eth_accounts p (env w1) = (Resolve (Some l), e') ->
  fst (getAccounts w) = Return cs ->
  length cs = length (nonempty_entries l) /\
  length cs <= length l /\
  (Forall (fun o => exists a, o = Some a /\ truthy_string a = true) l ->
   length cs = length l) /\
  (NoDup cs -> NoDup (nonempty_entries l)).
Proof.
  intros HP HR Hcs.
  assert (Hall : Forall2 checksum_of (nonempty_entries l) cs).
  { rewrite (getAccounts_run _ _ _ _ _ HP HR) in Hcs. cbn [fst] in Hcs.
    destruct l as [| x l]; cbn [length Nat.eqb] in Hcs.
    - injection Hcs as <-. constructor.
    - apply reduce_accounts_spec in Hcs as (tl & -> & H). exact H. }
  pose proof (Forall2_length Hall) as Hlen.
  destruct (nonempty_entries_length l) as [Hle Hmap].
  split; [now symmetry |]. split; [lia |]. split.
  - intros Hf. rewrite <- Hlen, (Hmap Hf). apply length_map.
  - now apply Forall2_checksum_NoDup.
Qed.

(** X13: [getChainId] returns [Number] of the string the provider answers
    [eth_chainId] with, and logs that string once at info level; when the
    provider is undefined it throws a [TypeError], and when the request is
    rejected it throws that rejection, in both cases without logging. *)
Theorem getChainId_returns_Number (w w1 : World) :
  (forall p s e',
      getProvider w = (Return (Some p), w1) ->
      request_eth_chainId p (env w1) = (Resolve s, e') ->
      fst (getChainId w) = Return (Number s) /\
      logged (snd (getChainId w))
        = logged w1 ++ [(LogInfo, [LogString "chainId"; LogString s])] /\
      env (snd (getChainId w)) = e') /\
  (forall p reason e',
      getProvider w = (Return (Some p), w1) ->
      request_eth_chainId p (env w1) = (Reject reason, e') ->
      fst (getChainId w) = Throw (SdkError reason) /\
      logged (snd (getChainId w)) = logged w1) /\
  (getProvider w = (Return None, w1) ->
   exists message, getChainId w = (Throw (TypeError message), w1)).
Proof.
  split; [| split].
  - intros p s e' HP HR. unfold getChainId.
    rewrite (bind_Return _ _ _ _ _ HP). cbn.
    unfold bind, call. rewrite HR. cbn. now repeat split.
  - intros p reason e' HP HR. unfold getChainId.
    rewrite (bind_Return _ _ _ _ _ HP). cbn.
    unfold bind, call. rewrite HR. cbn. now split.
  - intros HP. unfold getChainId.
    rewrite (bind_Return _ _ _ _ _ HP). cbn. now eexists.
Qed.

End ConnectorProperties.

(* ================================================================== *)
(** ** The properties on the simulated wallet *)
(* ================================================================== *)

#[local] Existing Instance SimTorus.
#[local] Existing Instance sample_imports.
#[local] Existing Instance sample_cfg.

(** Before [setup], [connect] and [switchChain] to Polygon fail on the
    missing instance. *)
Lemma uninitialized_instance_error_witness :
  __torus world_before_setup = None /\
  connect (Some (Num 137)) world_before_setup
    = (Throw uninitialized, world_before_setup) /\
  fst (switchChain (Num 137) world_before_setup)
    = Throw (SwitchChainError uninitialized).
Proof.
  destruct (uninitialized_instance_error world_before_setup eq_refl)
    as (_ & _ & _ & Hconnect & _ & Hswitch).
  split; [reflexivity |]. split; [apply Hconnect |].
  destruct (Hswitch (Num 137) polygon eq_refl) as (w' & Hs & _).
  now rewrite Hs.
Defined.

(** The wallet answers [[alice; ""; null]]; only the checksum form of
    [alice] comes back. *)
Lemma getAccounts_checksummed_nonempty_witness :
  request_eth_accounts tt (env world_connected)
    = (Resolve (Some [Some alice; Some ""; None]), env world_connected) /\
  fst (getAccounts world_connected) = Return [alice_checksum].
Proof.
  assert (HP : getProvider world_connected
               = (Return (Some tt), world_connected)) by (vm_compute; reflexivity).
  assert (HR : request_eth_accounts tt (env world_connected)
               = (Resolve (Some [Some alice; Some ""; None]),
                  env world_connected)) by (vm_compute; reflexivity).
  split; [exact HR |].
  destruct (getAccounts_checksummed_nonempty
              world_connected world_connected tt
              (Some [Some alice; Some ""; None]) (env world_connected)
              HP HR) as (_ & _ & H & _).
  apply (H alice alice_checksum); reflexivity.
Defined.

(** Not logged in, [isAuthorized] answers [false]; before [setup] the
    error of [getProvider] is swallowed. *)
Lemma isAuthorized_never_throws_witness :
  fst (getProvider world_before_setup) = Throw uninitialized /\
  fst (isAuthorized world_before_setup) = Return false.
Proof.
  split; [reflexivity |].
  destruct (isAuthorized_never_throws world_before_setup)
    as (b & w' & Heq & _ & Hthrow & _).
  destruct (Hthrow uninitialized world_before_setup eq_refl) as [Hb _].
  rewrite Heq. cbn [fst]. now rewrite Hb.
Defined.

(** Two addresses arrive; the change event carries the first one only. *)
Lemma onAccountsChanged_emits_witness :
  emitted (snd (onAccountsChanged [] world_connected)) = [EmitDisconnect] /\
  emitted (snd (onAccountsChanged
                  [alice; "0xde709f2102306220921060314715629080e2fb77"]
                  world_connected))
    = [EmitChangeAccounts [alice_checksum]].
Proof.
  split.
  - destruct (onAccountsChanged_emits [] world_connected) as [H _].
    exact (proj2 (H (or_introl eq_refl))).
  - destruct (onAccountsChanged_emits
                [alice; "0xde709f2102306220921060314715629080e2fb77"]
                world_connected) as [_ H].
    exact (proj2 (H alice _ alice_checksum eq_refl eq_refl eq_refl)).
Defined.

(** [disconnect] after a [connect]: the wallet is logged out, the
    instance stays. *)
Lemma disconnect_keeps_instance_and_network_witness :
  __torus world_connected = Some tt /\
  __torus (snd (disconnect world_connected)) = Some tt /\
  sim_loggedIn (env (snd (disconnect world_connected))) = false /\
  fst (getTorus (snd (disconnect world_connected))) = Return tt.
Proof.
  destruct (disconnect_keeps_instance_and_network world_connected)
    as (Ht & _ & Hsome & _).
  destruct (Hsome tt eq_refl) as (_ & Henv & Hget).
  split; [reflexivity |]. split; [exact Ht |]. split.
  - rewrite Henv. reflexivity.
  - now rewrite Hget.
Defined.

(** Switching to Polygon succeeds; switching to chain 5, which is not
    configured, and switching on a wallet that rejects [setProvider] both
    end in a [SwitchChainError]. *)
Lemma switchChain_succeeds_iff_witness :
  fst (switchChain (Num 137) world_after_setup) = Return polygon /\
  (exists cause,
      fst (switchChain (Num 5) world_after_setup)
        = Throw (SwitchChainError cause)) /\
  (exists cause,
      fst (switchChain (Num 137) world_rejecting_setProvider)
        = Throw (SwitchChainError cause)).
Proof.
  split; [| split].
  - destruct (switchChain_succeeds_iff (Num 137) world_after_setup)
      as ([_ Hiff] & Hret & _).
    destruct (Hiff (conj eq_refl eq_refl)) as (chain & w' & Hs).
    rewrite Hs. cbn [fst].
    destruct (Hret chain w' Hs) as (Hfind & _).
    now injection Hfind as <-.
  - destruct (switchChain_succeeds_iff (Num 5) world_after_setup)
      as ([Hiff _] & _ & [Hok | (cause & w' & Hs)] & _).
    + destruct (Hiff Hok) as [Hex _]. discriminate Hex.
    + exists cause. now rewrite Hs.
  - destruct (switchChain_succeeds_iff (Num 137) world_rejecting_setProvider)
      as ([Hiff _] & _ & [Hok | (cause & w' & Hs)] & _).
    + destruct (Hiff Hok) as [_ Hsp]. discriminate Hsp.
    + exists cause. now rewrite Hs.
Defined.

(** The wallet is not logged in and [isAuthorized] resolves to [false];
    [switchChain] succeeds all the same. *)
Lemma switchChain_login_guard_unreachable_witness :
  fst (isAuthorized world_after_setup) = Return false /\
  fst (switchChain (Num 137) world_after_setup) = Return polygon.
Proof.
  split; [reflexivity |].
  destruct (switchChain_login_guard_unreachable (Num 137) world_after_setup)
    as (_ & _ & H).
  assert (HA : isAuthorized_async world_after_setup
               = (Return (floating_isAuthorized world_after_setup),
                  snd (isAuthorized_async world_after_setup)))
    by (vm_compute; reflexivity).
  rewrite (proj2 (H polygon _ _ eq_refl HA)).
  vm_compute. reflexivity.
Defined.

(** On a wallet that sits on chain 5, [connect()] retrieves the account
    and then fails. *)
Lemma connect_unsupported_chain_fails_witness :
  fst (connect_lookups world_on_chain_5) = Return ([alice_checksum], Num 5) /\
  isChainUnsupported (Num 5) = true /\
  fst (connect None world_on_chain_5)
    = Throw (SwitchChainError chain_not_found).
Proof.
  split; [reflexivity |]. split; [reflexivity |].
  destruct (connect_unsupported_chain_fails None world_on_chain_5) as (H & _).
  assert (HL : connect_lookups world_on_chain_5
               = (Return ([alice_checksum], Num 5),
                  snd (connect_lookups world_on_chain_5))) by (vm_compute; reflexivity).
  rewrite (H [alice_checksum] (Num 5) _ HL (or_introl eq_refl) eq_refl).
  reflexivity.
Defined.

(** Connected to chain 1, the caller asks for Polygon and gets it. *)
Lemma connect_switch_outcome_witness :
  fst (connect_lookups world_after_setup) = Return ([alice_checksum], Num 1) /\
  truthy_number (Num 137) = true /\
  strict_neq (Num 1) (Num 137) = true /\
  fst (connect (Some (Num 137)) world_after_setup)
    = Return ([alice_checksum], Num 137).
Proof.
  split; [reflexivity |]. split; [reflexivity |]. split; [reflexivity |].
  assert (HL : connect_lookups world_after_setup
               = (Return ([alice_checksum], Num 1),
                  snd (connect_lookups world_after_setup))) by (vm_compute; reflexivity).
  destruct (connect_switch_outcome (Num 137) world_after_setup
              [alice_checksum] (Num 1) _ HL eq_refl eq_refl) as (_ & Hok & _).
  assert (HS : switchChain (Num 137) (snd (connect_lookups world_after_setup))
               = (Return polygon,
                  snd (switchChain (Num 137)
                         (snd (connect_lookups world_after_setup)))))
    by (vm_compute; reflexivity).
  rewrite (Hok polygon _ HS). reflexivity.
Defined.

(** Connected to chain 1, the caller asks for chain 5, which is not
    configured: the switch is attempted and fails, and [connect] fails
    with it instead of reporting a chain id.  The same happens when the
    caller asks for Polygon and the wallet rejects [setProvider]. *)
Lemma connect_failed_switch_reports_no_chain_id :
  (fst (connect_lookups world_after_setup)
     = Return ([alice_checksum], Num 1) /\
   truthy_number (Num 5) = true /\
   strict_neq (Num 1) (Num 5) = true /\
   switchChain_is_function = true /\
   fst (switchChain (Num 5) (snd (connect_lookups world_after_setup)))
     = Throw (SwitchChainError (SwitchChainError chain_not_found)) /\
   ~ (exists accounts id w',
         connect (Some (Num 5)) world_after_setup
           = (Return (accounts, id), w'))) /\
  (fst (connect_lookups world_rejecting_setProvider)
     = Return ([alice_checksum], Num 1) /\
   truthy_number (Num 137) = true /\
   strict_neq (Num 1) (Num 137) = true /\
   switchChain_is_function = true /\
   fst (switchChain (Num 137)
          (snd (connect_lookups world_rejecting_setProvider)))
     = Throw (SwitchChainError (SdkError "setProvider rejected")) /\
   ~ (exists accounts id w',
         connect (Some (Num 137)) world_rejecting_setProvider
           = (Return (accounts, id), w'))).
Proof.
  split; repeat (split; [reflexivity |]);
    intros (accounts & id & w' & H);
    apply (f_equal fst) in H; vm_compute in H; discriminate H.
Qed.

(** *** Sample runs *)

Example setup_resolves_mainnet :
  network world_after_setup
    = Some {| net_host := "mainnet"; net_chainId := Num 1;
              networkName := "Ethereum"; tickerName := Some "Ether";
              ticker := Some "ETH"; blockExplorer := "https://etherscan.io" |}.
Proof. reflexivity. Qed.

Example connect_logs_in_and_listens :
  fst (connect None world_after_setup) = Return ([alice_checksum], Num 1) /\
  sim_loggedIn (env world_connected) = true /\
  sim_listeners (env world_connected)
    = [("accountsChanged", onAccountsChanged_listener);
       ("chainChanged", onChainChanged_listener)].
Proof. repeat split. Qed.

Example connect_unconfigured_target :
  fst (connect (Some (Num 5)) world_after_setup)
    = Throw (SwitchChainError (SwitchChainError chain_not_found)).
Proof. reflexivity. Qed.

Example onChainChanged_unsupported_chain :
  isChainUnsupported (Number "0x5") = true /\
  emitted (snd (onChainChanged "0x5" world_connected))
    = [EmitChangeChainId (Num 5)].
Proof. split; reflexivity. Qed.

Example onChainChanged_supported_chain :
  isChainUnsupported (Number "0x89") = false /\
  emitted (snd (onChainChanged "0x89" world_connected))
    = [EmitChangeChainId (Num 137)].
Proof. split; reflexivity. Qed.

Example onChainChanged_malformed :
  emitted (snd (onChainChanged "mainnet" world_connected))
    = [EmitChangeChainId NaN].
Proof. reflexivity. Qed.

(** Behind an SDK that refuses [setProvider] until [init] has completed,
    [switchChain] fails on a connector whose SDK is not initialised: its
    un-awaited [isAuthorized()] has called [init] and has not seen it
    settle when [setProvider] is called.  Once a [getProvider] has been
    awaited, the same switch succeeds. *)
Example switchChain_while_init_pending :
  setProvider_succeeds (sdk := StrictTorus) (Num 137) strict_world_after_setup
    = false /\
  fst (switchChain (sdk := StrictTorus) (Num 137) strict_world_after_setup)
    = Throw (SwitchChainError (SdkError "not initialized")) /\
  fst (switchChain (sdk := StrictTorus) (Num 137)
         (snd (getProvider (sdk := StrictTorus) strict_world_after_setup)))
    = Return polygon.
Proof. repeat split; vm_compute; reflexivity. Qed.

(** The order in which [switchChain] reaches the SDK when the SDK is not
    initialised: [setProvider] comes before [init] settles, and the rest
    of [isAuthorized()] follows. *)
Example switchChain_call_order :
  trace_calls (env (snd (switchChain (sdk := TraceTorus) (Num 137)
                           trace_world_after_setup)))
    = ["new Torus"; "init"; "setProvider"; "init settled"; "showTorusButton";
       "showTorusButton"; "eth_accounts"].
Proof. vm_compute. reflexivity. Qed.

(** The order in which [connect] reaches the SDK: both lookups call
    [getProvider], and with it [showTorusButton], before either sends its
    request. *)
Example connect_call_order :
  trace_calls (env (snd (connect (sdk := TraceTorus) None
                           trace_world_after_setup)))
    = ["new Torus"; "init"; "init settled"; "showTorusButton"; "login";
       "accountsChanged"; "chainChanged"; "showTorusButton";
       "showTorusButton"; "eth_accounts"; "eth_chainId"].
Proof. vm_compute. reflexivity. Qed.

(** *** The further properties on the simulated wallet *)

(** Connecting, switching to Polygon, disconnecting and a chain change
    leave [network] describing the chain of [setup]. *)
Lemma only_setup_assigns_closure_witness :
  let calls := [call_connect None; call_switchChain (Num 137);
                call_disconnect; call_onChainChanged "0x89"] in
  existsb is_setup calls = false /\
  __torus (run calls world_after_setup) = Some tt /\
  option_map networkName (network (run calls world_after_setup))
    = Some "Ethereum".
Proof.
  intros calls.
  destruct (only_setup_assigns_closure calls world_after_setup eq_refl)
    as [Ht Hn].
  split; [reflexivity |]. split; [now rewrite Ht | now rewrite Hn].
Defined.

Lemma instance_never_cleared_witness :
  let calls := [call_disconnect; call_setup; call_disconnect] in
  existsb is_setup calls = true /\
  fst (getTorus (run calls world_before_setup)) = Return tt.
Proof.
  intros calls. split; [reflexivity |].
  destruct (instance_never_cleared calls world_before_setup) as [Hiff Hget].
  destruct (Hget (proj2 Hiff (or_intror eq_refl))) as (t & Ht).
  rewrite Ht. now destruct t.
Defined.

Lemma network_stays_consistent_witness :
  network_consistent world_before_setup /\
  network_consistent
    (run [call_setup; call_connect (Some (Num 137))] world_before_setup) /\
  isChainUnsupported setup_chainId = false.
Proof.
  split; [exact I |].
  destruct (network_stays_consistent
              [call_setup; call_connect (Some (Num 137))]
              world_before_setup I) as [H _].
  split; [exact H | reflexivity].
Defined.

Lemma only_relays_emit_witness :
  let calls := [call_connect None; call_onChainChanged "0x89";
                call_switchChain (Num 137); call_onDisconnect] in
  exists evs,
    emitted (run calls world_after_setup) = evs /\ length evs <= 2.
Proof.
  intros calls.
  destruct (only_relays_emit calls world_after_setup)
    as (_ & _ & evs & Hevs & Hlen).
  exists evs. split; [exact Hevs | exact Hlen].
Defined.

Lemma onConnect_emits_witness :
  emitted (snd (onConnect "0x89" world_connected))
    = [EmitConnect [alice_checksum] (Num 137)].
Proof.
  destruct (onConnect_emits "0x89" world_connected) as [H _].
  assert (HA : getAccounts world_connected
               = (Return [alice_checksum], snd (getAccounts world_connected)))
    by (vm_compute; reflexivity).
  exact (proj2 (H _ _ HA)).
Defined.

Lemma switchChain_logs_failure_witness :
  logged (snd (switchChain (Num 5) world_after_setup))
    = [(LogErr, [LogString "Error: Cannot change chain";
                 LogError (SwitchChainError chain_not_found)])].
Proof.
  destruct (switchChain_logs_failure (Num 5) world_after_setup) as [_ H].
  assert (HS : switchChain (Num 5) world_after_setup
               = (Throw (SwitchChainError (SwitchChainError chain_not_found)),
                  snd (switchChain (Num 5) world_after_setup)))
    by (vm_compute; reflexivity).
  exact (H _ _ HS).
Defined.

Lemma calls_throw_only_witness :
  fst (perform (call_switchChain (Num 137)) world_before_setup)
    = Throw (SwitchChainError uninitialized) /\
  switch_error missing_instance (SwitchChainError uninitialized).
Proof.
  split; [reflexivity |].
  assert (HS : perform (call_switchChain (Num 137)) world_before_setup
               = (Throw (SwitchChainError uninitialized),
                  snd (perform (call_switchChain (Num 137))
                         world_before_setup)))
    by (vm_compute; reflexivity).
  exact (calls_throw_only _ _ _ _ HS).
Defined.

Lemma no_missing_instance_after_setup_witness :
  existsb is_setup [call_setup] = true /\
  fst (perform (call_connect (Some (Num 5)))
         (run [call_setup] world_before_setup))
    = Throw (SwitchChainError (SwitchChainError chain_not_found)) /\
  SwitchChainError (SwitchChainError chain_not_found) <> uninitialized.
Proof.
  split; [reflexivity |]. split; [reflexivity |].
  assert (HS : perform (call_connect (Some (Num 5)))
                 (run [call_setup] world_before_setup)
               = (Throw (SwitchChainError (SwitchChainError chain_not_found)),
                  snd (perform (call_connect (Some (Num 5)))
                         (run [call_setup] world_before_setup))))
    by (vm_compute; reflexivity).
  exact (proj1 (proj2 (no_missing_instance_after_setup
                         [call_setup] _ world_before_setup _ _
                         (or_intror eq_refl) HS))).
Defined.

Lemma isChainUnsupported_iff_witness :
  isChainUnsupported (Num 137) = false /\ isChainUnsupported (Num 5) = true.
Proof.
  split.
  - destruct (isChainUnsupported_iff (Num 137)) as ([_ H] & _).
    apply H. split; [discriminate |]. exists polygon.
    split; [right; now left | reflexivity].
  - destruct (isChainUnsupported_iff (Num 5)) as (_ & [_ H] & _).
    apply H. reflexivity.
Defined.

Lemma connect_without_switch_witness :
  truthy_number (Num 0) = false /\
  connect (Some (Num 0)) world_after_setup = connect None world_after_setup /\
  connect (Some (Num 1)) world_after_setup = connect None world_after_setup.
Proof.
  destruct (connect_without_switch (Num 0) world_after_setup) as (H0 & _).
  destruct (connect_without_switch (Num 1) world_after_setup) as (_ & H1 & _).
  split; [reflexivity |]. split; [exact (H0 eq_refl) |].
  assert (HL : connect_lookups world_after_setup
               = (Return ([alice_checksum], Num 1),
                  snd (connect_lookups world_after_setup))) by (vm_compute; reflexivity).
  exact (H1 _ _ _ HL eq_refl).
Defined.

Lemma connect_malformed_chain_id_witness :
  fst (connect_lookups world_malformed_chain)
    = Return ([alice_checksum], NaN) /\
  fst (connect None world_malformed_chain)
    = Throw (SwitchChainError chain_not_found) /\
  fst (connect (Some (Num 137)) world_malformed_chain)
    = Return ([alice_checksum], Num 137).
Proof.
  assert (HL : connect_lookups world_malformed_chain
               = (Return ([alice_checksum], NaN),
                  snd (connect_lookups world_malformed_chain))) by (vm_compute; reflexivity).
  split; [reflexivity |].
  destruct (connect_malformed_chain_id None world_malformed_chain _ _ HL)
    as [Hnone _].
  destruct (connect_malformed_chain_id (Some (Num 137)) world_malformed_chain
              _ _ HL) as [_ Hsome].
  split.
  - now rewrite (Hnone (or_introl eq_refl)).
  - now rewrite (Hsome (Num 137) eq_refl eq_refl).
Defined.

Lemma getAccounts_drops_only_empty_witness :
  fst (getAccounts world_connected) = Return [alice_checksum] /\
  length [alice_checksum] <= length [Some alice; Some ""; None].
Proof.
  assert (HP : getProvider world_connected
               = (Return (Some tt), world_connected)) by (vm_compute; reflexivity).
  assert (HR : request_eth_accounts tt (env world_connected)
               = (Resolve (Some [Some alice; Some ""; None]),
                  env world_connected)) by (vm_compute; reflexivity).
  assert (HA : fst (getAccounts world_connected) = Return [alice_checksum])
    by (vm_compute; reflexivity).
  split; [exact HA |].
  exact (proj1 (proj2 (getAccounts_drops_only_empty
                         world_connected world_connected tt _ _ _ HP HR HA))).
Defined.

Lemma getChainId_returns_Number_witness :
  fst (getChainId world_malformed_chain) = Return NaN /\
  fst (getChainId world_connected) = Return (Num 1).
Proof.
  split.
  - destruct (getChainId_returns_Number world_malformed_chain
                (snd (getProvider world_malformed_chain))) as (H & _).
    assert (HP : getProvider world_malformed_chain
                 = (Return (Some tt), snd (getProvider world_malformed_chain)))
      by (vm_compute; reflexivity).
    exact (proj1 (H tt "mainnet" _ HP eq_refl)).
  - destruct (getChainId_returns_Number world_connected world_connected)
      as (H & _).
    assert (HP : getProvider world_connected
                 = (Return (Some tt), world_connected)) by (vm_compute; reflexivity).
    exact (proj1 (H tt "0x1" _ HP eq_refl)).
Defined.

Lemma network_fixed_by_first_setup_witness :
  option_map networkName
    (network (run [call_switchChain (Num 137); call_setup; call_disconnect]
                (snd (setup world_before_setup))))
    = Some "Ethereum".
Proof.
  destruct (network_fixed_by_first_setup
              [call_switchChain (Num 137); call_setup; call_disconnect]
              world_before_setup) as (H & _).
  now rewrite H.
Defined.
